(** * batsign: the API-key store and the ext_authz check, verified

    A shallow embedding of

      - [internal/apikey/apikey.go]  ([HashAPIKey], [GenerateHint]),
      - [internal/models/apikey.go]  ([APIKeyEntry]),
      - [internal/server/store.go]   ([ValidateKey], [syncAPIKeys],
                                      [handleWatchEvent], [parseAPIKey]),
      - the authorization server     ([Check], [extractAPIKey],
                                      [allowResponse], [denyResponse]),

    together with the library functions these call: SHA-256 and the
    accessors of [k8s.io/apimachinery]'s [unstructured] package.

    Go strings are byte strings, so they are [string] here: [len] is
    [String.length] and a slice [s[i:j]] is [substring i (j - i) s].
    A Go [map[string]T] is a [gmap string T]. *)

From Stdlib Require Import ZArith String Ascii List Lia.
From stdpp Require Import gmap strings list fin_maps.

Local Open Scope Z_scope.

(** ** crypto/sha256 *)

Module sha256.

(** [uint32] arithmetic: every sum is reduced modulo [2^32]. *)
Definition wrap32 (x : Z) : Z := x mod 2 ^ 32.

Definition add32 (x y : Z) : Z := wrap32 (x + y).

(** [^x] on a [uint32]. *)
Definition not32 (x : Z) : Z := Z.lxor x 0xffffffff.

(** [bits.RotateLeft32(x, -k)], a rotation to the right by [k]. *)
Definition rotr (k x : Z) : Z :=
  Z.lor (Z.shiftr x k) (wrap32 (Z.shiftl x (32 - k))).

(** Big-endian reading of a run of lower-case hexadecimal digits, eight
    digits to a word. *)
Definition hex_value (c : ascii) : Z :=
  let n := Z.of_N (N_of_ascii c) in
  if n <? 58 then n - 48 else n - 87.

Fixpoint words_of_hex (s : string) (k : nat) (acc : Z) : list Z :=
  match s with
  | EmptyString => []
  | String c rest =>
      let acc' := 16 * acc + hex_value c in
      match k with
      | O => acc' :: words_of_hex rest 7 0
      | S k' => words_of_hex rest k' acc'
      end
  end.

(** The round constants [_K], eight words to a row. *)
Definition _K : list Z :=
  concat (map (fun row => words_of_hex row 7 0)
    [ "428a2f9871374491b5c0fbcfe9b5dba53956c25b59f111f1923f82a4ab1c5ed5";
      "d807aa9812835b01243185be550c7dc372be5d7480deb1fe9bdc06a7c19bf174";
      "e49b69c1efbe47860fc19dc6240ca1cc2de92c6f4a7484aa5cb0a9dc76f988da";
      "983e5152a831c66db00327c8bf597fc7c6e00bf3d5a7914706ca635114292967";
      "27b70a852e1b21384d2c6dfc53380d13650a7354766a0abb81c2c92e92722c85";
      "a2bfe8a1a81a664bc24b8b70c76c51a3d192e819d6990624f40e3585106aa070";
      "19a4c1161e376c082748774c34b0bcb5391c0cb34ed8aa4a5b9cca4f682e6ff3";
      "748f82ee78a5636f84c878148cc7020890befffaa4506cebbef9a3f7c67178f2" ]).

(** The eight chaining words [dig.h]. *)
Record digest : Type := Digest {
  h0 : Z; h1 : Z; h2 : Z; h3 : Z; h4 : Z; h5 : Z; h6 : Z; h7 : Z
}.

Definition init : digest :=
  Digest 0x6a09e667 0xbb67ae85 0x3c6ef372 0xa54ff53a
         0x510e527f 0x9b05688c 0x1f83d9ab 0x5be0cd19.

(** [w[i] = p[j]<<24 | p[j+1]<<16 | p[j+2]<<8 | p[j+3]] for the sixteen
    words of one 64-byte chunk. *)
Fixpoint load_words (n : nat) (p : list Z) : list Z :=
  match n, p with
  | S n', b0 :: b1 :: b2 :: b3 :: rest =>
      Z.lor (Z.lor (Z.lor (Z.shiftl b0 24) (Z.shiftl b1 16)) (Z.shiftl b2 8)) b3
      :: load_words n' rest
  | _, _ => []
  end.

(** The schedule is grown newest word first, so that [w[i-2]], [w[i-7]],
    [w[i-15]] and [w[i-16]] sit at positions 1, 6, 14 and 15. *)
Definition next_word (rev_w : list Z) : Z :=
  let v1 := nth 1 rev_w 0 in
  let t1 := Z.lxor (Z.lxor (rotr 17 v1) (rotr 19 v1)) (Z.shiftr v1 10) in
  let v2 := nth 14 rev_w 0 in
  let t2 := Z.lxor (Z.lxor (rotr 7 v2) (rotr 18 v2)) (Z.shiftr v2 3) in
  add32 (add32 (add32 t1 (nth 6 rev_w 0)) t2) (nth 15 rev_w 0).

Fixpoint extend (n : nat) (rev_w : list Z) : list Z :=
  match n with
  | O => rev_w
  | S n' => extend n' (next_word rev_w :: rev_w)
  end.

Definition schedule (p : list Z) : list Z :=
  rev (extend 48 (rev (load_words 16 p))).

(** One iteration of the 64-round loop on the working variables. *)
Definition round (v : digest) (kw : Z * Z) : digest :=
  let '(Digest a b c d e f g h) := v in
  let t1 :=
    add32 (add32 (add32 (add32 h
      (Z.lxor (Z.lxor (rotr 6 e) (rotr 11 e)) (rotr 25 e)))
      (Z.lxor (Z.land e f) (Z.land (not32 e) g)))
      (fst kw)) (snd kw) in
  let t2 :=
    add32 (Z.lxor (Z.lxor (rotr 2 a) (rotr 13 a)) (rotr 22 a))
          (Z.lxor (Z.lxor (Z.land a b) (Z.land a c)) (Z.land b c)) in
  Digest (add32 t1 t2) a b c (add32 d t1) e f g.

(** [blockGeneric] on one chunk. *)
Definition block (dig : digest) (p : list Z) : digest :=
  let v := fold_left round (combine _K (schedule p)) dig in
  Digest (add32 (h0 dig) (h0 v)) (add32 (h1 dig) (h1 v))
         (add32 (h2 dig) (h2 v)) (add32 (h3 dig) (h3 v))
         (add32 (h4 dig) (h4 v)) (add32 (h5 dig) (h5 v))
         (add32 (h6 dig) (h6 v)) (add32 (h7 dig) (h7 v)).

(** [blockGeneric]'s outer loop, [for len(p) >= chunk]; [n] bounds the
    number of chunks. *)
Fixpoint blocks (n : nat) (dig : digest) (p : list Z) : digest :=
  match n with
  | O => dig
  | S n' =>
      if (length p <? 64)%nat then dig
      else blocks n' (block dig (firstn 64 p)) (skipn 64 p)
  end.

(** [checkSum]: a [0x80] byte, zeros up to 56 modulo 64, then the length
    in bits as a big-endian [uint64]. *)
Definition be64 (x : Z) : list Z :=
  map (fun k => Z.shiftr x k mod 256) [56; 48; 40; 32; 24; 16; 8; 0].

Definition pad (msg : list Z) : list Z :=
  let len := Z.of_nat (length msg) in
  let zeros := Z.to_nat ((55 - len) mod 64) in
  msg ++ 0x80 :: repeat 0 zeros ++ be64 (len * 8).

Definition bytes_of_string (s : string) : list Z :=
  map (fun c => Z.of_N (N_of_ascii c)) (list_ascii_of_string s).

(** [sha256.Sum256]. *)
Definition Sum256 (data : list Z) : digest :=
  let p := pad data in
  blocks (length p) init p.

(** [fmt.Sprintf("%x", hash)] on the 32 bytes of the sum: two lower-case
    hexadecimal digits per byte, that is eight per chaining word. *)
Definition hex_digit (d : Z) : ascii :=
  if d <? 10 then ascii_of_N (Z.to_N (48 + d)) else ascii_of_N (Z.to_N (87 + d)).

Definition hex32 (x : Z) : string :=
  string_of_list_ascii
    (map (fun k => hex_digit (Z.shiftr x k mod 16)) [28; 24; 20; 16; 12; 8; 4; 0]).

Definition hex (d : digest) : string :=
  hex32 (h0 d) +:+ hex32 (h1 d) +:+ hex32 (h2 d) +:+ hex32 (h3 d) +:+
  hex32 (h4 d) +:+ hex32 (h5 d) +:+ hex32 (h6 d) +:+ hex32 (h7 d).

End sha256.

(** ** encoding/base64 *)

Module base64.

(** [encodeURL], the URL-safe alphabet. *)
Definition encodeURL : string :=
  "ABCDEFGHIJKLMNOPQRSTUVWXYZabcdefghijklmnopqrstuvwxyz0123456789-_".

(** [enc.encode[v]]. *)
Definition encode (v : Z) : ascii :=
  match String.get (Z.to_nat v) encodeURL with
  | Some c => c
  | None => zero
  end.

(** [Encoding.Encode] without padding: four characters for every three
    bytes, then three characters for two remaining bytes or two characters
    for one. *)
Fixpoint Encode (src : list Z) : list ascii :=
  match src with
  | b0 :: b1 :: b2 :: rest =>
      let val := Z.lor (Z.lor (Z.shiftl b0 16) (Z.shiftl b1 8)) b2 in
      encode (Z.land (Z.shiftr val 18) 0x3F)
      :: encode (Z.land (Z.shiftr val 12) 0x3F)
      :: encode (Z.land (Z.shiftr val 6) 0x3F)
      :: encode (Z.land val 0x3F)
      :: Encode rest
  | [b0; b1] =>
      let val := Z.lor (Z.shiftl b0 16) (Z.shiftl b1 8) in
      [ encode (Z.land (Z.shiftr val 18) 0x3F);
        encode (Z.land (Z.shiftr val 12) 0x3F);
        encode (Z.land (Z.shiftr val 6) 0x3F) ]
  | [b0] =>
      let val := Z.shiftl b0 16 in
      [ encode (Z.land (Z.shiftr val 18) 0x3F);
        encode (Z.land (Z.shiftr val 12) 0x3F) ]
  | [] => []
  end.

(** [RawURLEncoding.EncodeToString]. *)
Definition RawURLEncoding_EncodeToString (src : list Z) : string :=
  string_of_list_ascii (Encode src).

Definition in_alphabet (c : ascii) : bool :=
  match index 0 (String c EmptyString) encodeURL with
  | Some _ => true
  | None => false
  end.

End base64.

(** ** regexp *)

Module regexp.

(** The syntax tree of a pattern, for the operators the program's pattern
    uses. A character class is a list of inclusive byte ranges. *)
Inductive Regexp : Type :=
| NoMatch
| EmptyMatch
| CharClass (ranges : list (ascii * ascii))
| Concat (r1 r2 : Regexp)
| Alternate (r1 r2 : Regexp)
| Star (r : Regexp).

(** [x], [x+] and [x{n,}]. *)
Definition Literal (c : ascii) : Regexp := CharClass [(c, c)].

Definition Plus (r : Regexp) : Regexp := Concat r (Star r).

Fixpoint AtLeast (n : nat) (r : Regexp) : Regexp :=
  match n with
  | O => Star r
  | S k => Concat r (AtLeast k r)
  end.

Definition in_range (c : ascii) (range : ascii * ascii) : bool :=
  (nat_of_ascii range.1 <=? nat_of_ascii c)%nat && (nat_of_ascii c <=? nat_of_ascii range.2)%nat.

Definition in_class (ranges : list (ascii * ascii)) (c : ascii) : bool :=
  existsb (in_range c) ranges.

(** Matching by derivatives: [nullable r] tells whether [r] matches the
    empty string, [deriv c r] matches what [r] matches after a [c]. *)
Fixpoint nullable (r : Regexp) : bool :=
  match r with
  | NoMatch => false
  | EmptyMatch => true
  | CharClass _ => false
  | Concat r1 r2 => nullable r1 && nullable r2
  | Alternate r1 r2 => nullable r1 || nullable r2
  | Star _ => true
  end.

Fixpoint deriv (c : ascii) (r : Regexp) : Regexp :=
  match r with
  | NoMatch => NoMatch
  | EmptyMatch => NoMatch
  | CharClass ranges => if in_class ranges c then EmptyMatch else NoMatch
  | Concat r1 r2 =>
      if nullable r1
      then Alternate (Concat (deriv c r1) r2) (deriv c r2)
      else Concat (deriv c r1) r2
  | Alternate r1 r2 => Alternate (deriv c r1) (deriv c r2)
  | Star r1 => Concat (deriv c r1) (Star r1)
  end.

(** [MatchString] for a pattern anchored as [^r$]: the whole text has to
    match [r]. *)
Fixpoint MatchString (r : Regexp) (s : string) : bool :=
  match s with
  | EmptyString => nullable r
  | String c rest => MatchString (deriv c r) rest
  end.

(** The strings a pattern matches. *)
Inductive Matches : Regexp -> string -> Prop :=
| MatchesEmpty : Matches EmptyMatch EmptyString
| MatchesClass ranges c :
    in_class ranges c = true -> Matches (CharClass ranges) (String c EmptyString)
| MatchesConcat r1 r2 s1 s2 :
    Matches r1 s1 -> Matches r2 s2 -> Matches (Concat r1 r2) (s1 +:+ s2)
| MatchesLeft r1 r2 s : Matches r1 s -> Matches (Alternate r1 r2) s
| MatchesRight r1 r2 s : Matches r2 s -> Matches (Alternate r1 r2) s
| MatchesStarNil r : Matches (Star r) EmptyString
| MatchesStarCons r s1 s2 :
    Matches r s1 -> Matches (Star r) s2 -> Matches (Star r) (s1 +:+ s2).

(** Every byte of [s] is in the class. *)
Definition all_in (ranges : list (ascii * ascii)) (s : string) : Prop :=
  Forall (fun c => in_class ranges c = true) (list_ascii_of_string s).

End regexp.

(** ** strings.ReplaceAll *)

Module replace.

(** [Replace(s, old, new, -1)] for a non-empty [old]: the occurrences of
    [old] are found from the left and do not overlap. [skip] counts the
    bytes of a found occurrence still to pass over. (For an empty [old] Go
    inserts [new] around every UTF-8 sequence; the program never asks for
    that, and [s] comes back as it is here.) *)
Fixpoint replaceFrom (skip : nat) (s old new : string) : string :=
  match s with
  | EmptyString => EmptyString
  | String c rest =>
      match skip with
      | S k => replaceFrom k rest old new
      | O =>
          if String.prefix old s
          then new +:+ replaceFrom (String.length old - 1) rest old new
          else String c (replaceFrom 0 rest old new)
      end
  end.

Definition ReplaceAll (s old new : string) : string :=
  if String.eqb old EmptyString then s else replaceFrom 0 s old new.

(** Replacing one byte: every [old] byte gives way to [new]. *)
Fixpoint substitute (old : ascii) (new s : string) : string :=
  match s with
  | EmptyString => EmptyString
  | String c rest =>
      if Ascii.eqb c old then new +:+ substitute old new rest
      else String c (substitute old new rest)
  end.

End replace.

(** ** internal/apikey *)

Module apikey.

(** [HashAPIKey]: the SHA-256 sum of the key, in lower-case hexadecimal. *)
Definition HashAPIKey (apiKey : string) : string :=
  sha256.hex (sha256.Sum256 (sha256.bytes_of_string apiKey)).

(** [strings.Repeat]. *)
Fixpoint Repeat (s : string) (count : nat) : string :=
  match count with
  | O => EmptyString
  | S n => s +:+ Repeat s n
  end.

(** [GenerateHint]: the first 6 and the last 2 bytes around 13 stars; a
    key shorter than 8 bytes is returned as it is. *)
Definition GenerateHint (apiKey : string) : string :=
  if (String.length apiKey <? 8)%nat then apiKey
  else
    let first6 := substring 0 6 apiKey in
    let last2 := substring (String.length apiKey - 2) 2 apiKey in
    let stars := Repeat "*" 13 in
    first6 +:+ stars +:+ last2.

(** The characters [%x] prints. *)
Definition is_lower_hex (c : ascii) : bool :=
  match index 0 (String c EmptyString) "0123456789abcdef" with
  | Some _ => true
  | None => false
  end.

(** [SanitizeEmail]: [@] becomes [-at-], then every dot becomes a dash. *)
Definition SanitizeEmail (email : string) : string :=
  let name := replace.ReplaceAll email "@" "-at-" in
  let name := replace.ReplaceAll name "." "-" in
  name.

(** The pattern of [ValidateEmail],
    [^[a-zA-Z0-9._%+-]+@[a-zA-Z0-9.-]+\.[a-zA-Z]{2,}$]. *)
Definition localClass : list (ascii * ascii) :=
  [ ("a", "z"); ("A", "Z"); ("0", "9"); (".", "."); ("_", "_"); ("%", "%");
    ("+", "+"); ("-", "-") ]%char.

Definition domainClass : list (ascii * ascii) :=
  [ ("a", "z"); ("A", "Z"); ("0", "9"); (".", "."); ("-", "-") ]%char.

Definition letterClass : list (ascii * ascii) :=
  [ ("a", "z"); ("A", "Z") ]%char.

Definition emailRegex : regexp.Regexp :=
  regexp.Concat (regexp.Plus (regexp.CharClass localClass))
    (regexp.Concat (regexp.Literal "@")
      (regexp.Concat (regexp.Plus (regexp.CharClass domainClass))
        (regexp.Concat (regexp.Literal ".")
          (regexp.AtLeast 2 (regexp.CharClass letterClass))))).

(** [ValidateEmail]: the error, or [None] for nil. *)
Definition ValidateEmail (email : string) : option string :=
  if negb (regexp.MatchString emailRegex email)
  then Some ("invalid email format: " +:+ email)
  else None.

(** What [reader.Read(b)] does to a buffer of [n] bytes: the bytes it
    writes, from the start of the buffer, and the error it returns. The
    count it returns is dropped by the caller. *)
Record ReadResult : Type := { written : list Z; readError : option string }.

Definition Reader : Type := nat -> ReadResult.

(** [GenerateAPIKeyWithReader]: 32 bytes from the reader, in URL-safe
    base64 without padding, after [sk-]. The buffer starts as 32 zero
    bytes. *)
Definition GenerateAPIKeyWithReader (reader : Reader) : string * option string :=
  let result := reader 32%nat in
  let b := firstn 32 (written result ++ repeat 0 32) in
  match readError result with
  | Some err => (EmptyString, Some ("error generating random key: " +:+ err))
  | None => ("sk-" +:+ base64.RawURLEncoding_EncodeToString b, None)
  end.

End apikey.

(** ** k8s.io/apimachinery: unstructured documents *)

Module unstructured.

(** The values a decoded JSON document holds ([interface{}] restricted to
    what the decoder produces). A [float64] is kept as its bit pattern. *)
#[warnings="-register-all"]
Inductive JValue : Type :=
| JNull
| JBool (b : bool)
| JInt (n : Z)
| JFloat (bits : Z)
| JString (s : string)
| JArray (l : list JValue)
| JObject (m : gmap string JValue).

(** [Unstructured]: [Object map[string]interface{}]. *)
Record Unstructured : Type := { Object : gmap string JValue }.

(** [NestedFieldNoCopy]: walks [fields] down from [obj]. The result is
    [(val, found, err)]; [err] is kept as a flag. *)
Fixpoint walk (val : JValue) (fields : list string) : JValue * bool * bool :=
  match fields with
  | [] => (val, true, false)
  | field :: rest =>
      match val with
      | JNull => (JNull, false, false)
      | JObject m =>
          match m !! field with
          | Some v => walk v rest
          | None => (JNull, false, false)
          end
      | _ => (JNull, false, true)
      end
  end.

Definition NestedFieldNoCopy (obj : gmap string JValue) (fields : list string)
  : JValue * bool * bool :=
  walk (JObject obj) fields.

(** [NestedString]: [(s, found, err)]. *)
Definition NestedString (obj : gmap string JValue) (fields : list string)
  : string * bool * bool :=
  let '(val, found, err) := NestedFieldNoCopy obj fields in
  if negb found || err then (EmptyString, found, err)
  else
    match val with
    | JString s => (s, true, false)
    | _ => (EmptyString, false, true)
    end.

(** [NestedBool]. *)
Definition NestedBool (obj : gmap string JValue) (fields : list string)
  : bool * bool * bool :=
  let '(val, found, err) := NestedFieldNoCopy obj fields in
  if negb found || err then (false, found, err)
  else
    match val with
    | JBool b => (b, true, false)
    | _ => (false, false, true)
    end.

(** [NestedMap]: the map found is returned as a deep copy, which is the
    same value here. The nil map of a failed lookup is the empty map. *)
Definition NestedMap (obj : gmap string JValue) (fields : list string)
  : gmap string JValue * bool * bool :=
  let '(val, found, err) := NestedFieldNoCopy obj fields in
  if negb found || err then (∅, found, err)
  else
    match val with
    | JObject m => (m, true, false)
    | _ => (∅, false, true)
    end.

(** [GetName]: [metadata.name], or the empty string. *)
Definition GetName (u : Unstructured) : string :=
  let '(val, found, err) := NestedString (Object u) ["metadata"; "name"] in
  if negb found || err then EmptyString else val.

End unstructured.

(** ** internal/models *)

Module models.

Record APIKeyEntry : Type := {
  Name : string;
  Email : string;
  KeyHash : string;
  KeyHint : string;
  Description : string;
  Enabled : bool
}.

(** [APIKeySpec]: the desired state of an APIKey, with the json names
    [email], [keyHash], [keyHint], [description] and [enabled]. *)
Record APIKeySpec : Type := {
  SpecEmail : string;
  SpecKeyHash : string;
  SpecKeyHint : string;
  SpecDescription : string;
  SpecEnabled : bool
}.

End models.

(** ** unicode/utf8 and encoding/json: what a string is marshalled as *)

Module json.

Definition between (lo hi : nat) (c : ascii) : bool :=
  (lo <=? nat_of_ascii c)%nat && (nat_of_ascii c <=? hi)%nat.

(** [utf8]'s [first] table with [acceptRanges]: for a leading byte of
    [0xC2] and above, the size of the sequence and the range its second
    byte has to lie in; [None] for the bytes that start no sequence
    ([0x80..0xC1] and [0xF5..0xFF]). *)
Definition first (c0 : ascii) : option (nat * nat * nat) :=
  let b := nat_of_ascii c0 in
  if (b <? 194)%nat then None
  else if (b <=? 223)%nat then Some (2, 128, 191)%nat
  else if (b =? 224)%nat then Some (3, 160, 191)%nat
  else if (b =? 237)%nat then Some (3, 128, 159)%nat
  else if (b <=? 239)%nat then Some (3, 128, 191)%nat
  else if (b =? 240)%nat then Some (4, 144, 191)%nat
  else if (b <=? 243)%nat then Some (4, 128, 191)%nat
  else if (b =? 244)%nat then Some (4, 128, 143)%nat
  else None.

(** [utf8.DecodeRuneInString] on a string that starts with a byte of
    [0x80] or above: the size of the sequence decoded, or [None] for
    [(RuneError, 1)]. *)
Definition DecodeRuneInString (s : string) : option nat :=
  match s with
  | EmptyString => None
  | String c0 rest =>
      match first c0, rest with
      | Some (sz, lo, hi), String c1 rest1 =>
          if negb (between lo hi c1) then None
          else if (sz <=? 2)%nat then Some 2%nat
          else
            match rest1 with
            | String c2 rest2 =>
                if negb (between 128 191 c2) then None
                else if (sz <=? 3)%nat then Some 3%nat
                else
                  match rest2 with
                  | String c3 _ => if negb (between 128 191 c3) then None else Some 4%nat
                  | EmptyString => None
                  end
            | EmptyString => None
            end
      | _, _ => None
      end
  end.

(** U+FFFD in UTF-8. *)
Definition replacement : string :=
  String (ascii_of_nat 239) (String (ascii_of_nat 191) (String (ascii_of_nat 189) EmptyString)).

(** The string a Go string is marshalled as: [json.Marshal] writes every
    byte that [DecodeRuneInString] does not take as part of a UTF-8
    sequence as U+FFFD, and the rest as it is (escaped where needed, which
    a decoder undoes). [skip] counts the bytes of a decoded sequence still
    to copy. *)
Fixpoint coerce (skip : nat) (s : string) : string :=
  match s with
  | EmptyString => EmptyString
  | String c rest =>
      match skip with
      | S k => String c (coerce k rest)
      | O =>
          if (nat_of_ascii c <? 128)%nat then String c (coerce 0 rest)
          else
            match DecodeRuneInString s with
            | Some size => String c (coerce (size - 1) rest)
            | None => replacement +:+ coerce 0 rest
            end
      end
  end.

Definition Marshal_string (s : string) : string := coerce 0 s.

End json.

(** ** internal/apikey and cmd/client: the manifest *)

Module manifest.

(** [GenerateYAML], as the document its YAML text decodes to. The function
    builds the [APIKey] with [metadata.name] from [SanitizeEmail] and
    [spec] under the json names of [APIKeySpec], and returns
    [yaml.Marshal] of it after a [---] line. [yaml.Marshal] goes through
    [json.Marshal], which writes the strings as [json.Marshal_string]
    gives them; the layout of the YAML text is not modelled. An [APIKey]
    holds strings and booleans only, which [json.Marshal] always encodes,
    so the error branch is not taken. Of [metadata], only [name] is set. *)
Definition GenerateYAML (spec : models.APIKeySpec) : unstructured.Unstructured :=
  let resourceName := apikey.SanitizeEmail (models.SpecEmail spec) in
  {| unstructured.Object :=
       {[ "apiVersion" := unstructured.JString "auth.kgateway.dev/v1alpha1";
          "kind" := unstructured.JString "APIKey";
          "metadata" := unstructured.JObject
            {[ "name" := unstructured.JString (json.Marshal_string resourceName) ]};
          "spec" := unstructured.JObject
            {[ "email" := unstructured.JString (json.Marshal_string (models.SpecEmail spec));
               "keyHash" :=
                 unstructured.JString (json.Marshal_string (models.SpecKeyHash spec));
               "keyHint" :=
                 unstructured.JString (json.Marshal_string (models.SpecKeyHint spec));
               "description" :=
                 unstructured.JString (json.Marshal_string (models.SpecDescription spec));
               "enabled" := unstructured.JBool (models.SpecEnabled spec) ]} ]} |}.

(** The client's [run], from its flags to what it prints: the error, or
    the key shown on stderr with the document whose YAML goes to stdout.
    [reader] stands for [crypto/rand.Reader]. *)
Definition run (email description : string) (enabled : bool) (reader : apikey.Reader)
  : string + (string * unstructured.Unstructured) :=
  match apikey.ValidateEmail email with
  | Some err => inl err
  | None =>
      let description :=
        if String.eqb description EmptyString then "API key for " +:+ email
        else description in
      match apikey.GenerateAPIKeyWithReader reader with
      | (_, Some err) => inl err
      | (key, None) =>
          let keyHash := apikey.HashAPIKey key in
          let keyHint := apikey.GenerateHint key in
          let spec := {| models.SpecEmail := email;
                         models.SpecKeyHash := keyHash;
                         models.SpecKeyHint := keyHint;
                         models.SpecDescription := description;
                         models.SpecEnabled := enabled |} in
          inr (key, GenerateYAML spec)
      end
  end.

End manifest.

(** ** The Go [strings] functions used by the server *)

Module gostrings.

(** [HasPrefix]: [len(s) >= len(prefix) && s[:len(prefix)] == prefix]. *)
Definition HasPrefix (s prefix : string) : bool :=
  (String.length prefix <=? String.length s)%nat
  && String.eqb (substring 0 (String.length prefix) s) prefix.

(** [TrimPrefix]: [s[len(prefix):]] when [s] has the prefix, else [s]. *)
Definition TrimPrefix (s prefix : string) : string :=
  if HasPrefix s prefix
  then substring (String.length prefix) (String.length s - String.length prefix) s
  else s.

(** [Contains]: [substr] occurs within [s]. *)
Definition Contains (s substr : string) : Prop :=
  exists before after : string, s = before +:+ substr +:+ after.

End gostrings.

(** ** k8s.io/apimachinery: watch events *)

Module watch.

Inductive EventType : Type := Added | Modified | Deleted | Bookmark | Error.

(** [runtime.Object]: an unstructured document, or some other kind of
    object (a [*metav1.Status] on an error event, for one). *)
Inductive RuntimeObject : Type :=
| UnstructuredObject (u : unstructured.Unstructured)
| OtherObject.

Record Event : Type := { Type_ : EventType; Object : RuntimeObject }.

End watch.

(** ** internal/server: the store *)

Module server.

Import models.

(** What a [List] call on the dynamic client returns. *)
Inductive ListResult : Type :=
| ListItems (Items : list unstructured.Unstructured)
| ListError (err : string).

(** The part of [dynamic.Interface] the store calls:
    [Resource(apiKeyGVR).List] and [Resource(apiKeyGVR).Namespace(ns).List]. *)
Record Client : Type := {
  ListAll : ListResult;
  ListNamespace : string -> ListResult
}.

(** [APIKeyStore]. [keyHashes] maps a SHA-256 hash to the entry's
    metadata. The mutex and the stop channel have no content. *)
Record APIKeyStore : Type := {
  keyHashes : gmap string APIKeyEntry;
  client : Client;
  namespace : string
}.

Definition set_keyHashes (m : gmap string APIKeyEntry) (s : APIKeyStore) : APIKeyStore :=
  {| keyHashes := m; client := client s; namespace := namespace s |}.

(** [ValidateKey]. *)
Definition ValidateKey (s : APIKeyStore) (keyHash : string) : bool :=
  match keyHashes s !! keyHash with
  | None => false
  | Some entry => Enabled entry
  end.

(** [parseAPIKey]: [None] is the nil entry. The entry starts from
    [&models.APIKeyEntry{Name: obj.GetName()}] and each field found in
    [spec] is assigned in turn. *)
Definition parseAPIKey (obj : unstructured.Unstructured) : option APIKeyEntry :=
  let '(spec, found, err) := unstructured.NestedMap (unstructured.Object obj) ["spec"] in
  if err || negb found then None
  else
    let name := unstructured.GetName obj in
    let email :=
      let '(email, found, _) := unstructured.NestedString spec ["email"] in
      if found then email else EmptyString in
    let keyHash :=
      let '(keyHash, found, _) := unstructured.NestedString spec ["keyHash"] in
      if found then keyHash else EmptyString in
    let keyHint :=
      let '(keyHint, found, _) := unstructured.NestedString spec ["keyHint"] in
      if found then keyHint else EmptyString in
    let description :=
      let '(description, found, _) := unstructured.NestedString spec ["description"] in
      if found then description else EmptyString in
    let enabled :=
      let '(enabled, found, _) := unstructured.NestedBool spec ["enabled"] in
      if found then enabled else true in
    Some {| Name := name; Email := email; KeyHash := keyHash; KeyHint := keyHint;
            Description := description; Enabled := enabled |}.

(** The body of [syncAPIKeys]'s loop over [list.Items]. *)
Definition load (m : gmap string APIKeyEntry) (item : unstructured.Unstructured)
  : gmap string APIKeyEntry :=
  match parseAPIKey item with
  | Some entry => <[KeyHash entry := entry]> m
  | None => m
  end.

(** The [List] call [syncAPIKeys] opens with: every namespace when
    [s.namespace] is empty, that namespace otherwise. *)
Definition listAPIKeys (s : APIKeyStore) : ListResult :=
  if String.eqb (namespace s) EmptyString then ListAll (client s)
  else ListNamespace (client s) (namespace s).

(** [syncAPIKeys]: the store after the call and the error returned. *)
Definition syncAPIKeys (s : APIKeyStore) : APIKeyStore * option string :=
  match listAPIKeys s with
  | ListError err => (s, Some ("failed to list APIKeys: " +:+ err))
  | ListItems Items => (set_keyHashes (fold_left load Items ∅) s, None)
  end.

(** [handleWatchEvent]. *)
Definition handleWatchEvent (s : APIKeyStore) (event : watch.Event) : APIKeyStore :=
  match watch.Object event with
  | watch.OtherObject => s
  | watch.UnstructuredObject obj =>
      match parseAPIKey obj with
      | None => s
      | Some entry =>
          match watch.Type_ event with
          | watch.Added | watch.Modified =>
              set_keyHashes (<[KeyHash entry := entry]> (keyHashes s)) s
          | watch.Deleted =>
              set_keyHashes (delete (KeyHash entry) (keyHashes s)) s
          | _ => s
          end
      end
  end.

(** [Start]: the initial sync, then the watcher goroutine. The result is
    the store, the error returned, and whether [go s.watchAPIKeys(ctx)] was
    reached. *)
Definition Start (s : APIKeyStore) : APIKeyStore * option string * bool :=
  match syncAPIKeys s with
  | (s', Some err) => (s', Some ("failed initial sync: " +:+ err), false)
  | (s', None) => (s', None, true)
  end.

(** What one pass of [watchAPIKeys]'s outer loop meets: whether [stopCh] is
    closed and whether the context is done when the [select] runs, and what
    the [Watch] call gives, an error or a channel that delivers [events]
    and is then closed. *)
Inductive WatchResult : Type :=
| WatchError (err : string)
| WatchChannel (events : list watch.Event).

Record Turn : Type := {
  stopClosed : bool;
  ctxDone : bool;
  watcher : WatchResult
}.

(** [watchAPIKeys], run over the passes of its outer loop. The [select]
    returns when the store is stopped or the context is done; a failed
    [Watch] goes on to the next pass; an opened watch hands every event of
    its channel to [handleWatchEvent] before the next pass. *)
Fixpoint watchAPIKeys (s : APIKeyStore) (turns : list Turn) : APIKeyStore :=
  match turns with
  | [] => s
  | turn :: rest =>
      if stopClosed turn || ctxDone turn then s
      else
        match watcher turn with
        | WatchError _ => watchAPIKeys s rest
        | WatchChannel events => watchAPIKeys (fold_left handleWatchEvent events s) rest
        end
  end.

(** The body of [GetStats]'s loop: an entry adds one to [enabled] or to
    [disabled]. The pair is [(enabled, disabled)]. *)
Definition tally (keyHash : string) (entry : APIKeyEntry) (acc : nat * nat) : nat * nat :=
  if Enabled entry then (S acc.1, acc.2) else (acc.1, S acc.2).

(** [GetStats]: the [map[string]int] with the keys [total], [enabled] and
    [disabled]. The counts are [nat]: they start at 0 and only grow. *)
Definition GetStats (s : APIKeyStore) : gmap string nat :=
  let '(enabled, disabled) := map_fold tally (0%nat, 0%nat) (keyHashes s) in
  {[ "total" := size (keyHashes s); "enabled" := enabled; "disabled" := disabled ]}.

(** Reading a Go map: the zero value when the key is absent. *)
Definition index (stats : gmap string nat) (key : string) : nat :=
  default 0%nat (stats !! key).

(** What a gin handler writes: [c.String(code, text)] or
    [c.JSON(code, gin.H{...})]. *)
Inductive HValue : Type := HString (s : string) | HInt (n : nat).

Inductive Body : Type :=
| BodyString (text : string)
| BodyJSON (obj : gmap string HValue).

Record Response : Type := { StatusCode : Z; ResponseBody : Body }.

Definition StatusOK : Z := 200.
Definition StatusServiceUnavailable : Z := 503.

(** [healthHandler]. *)
Definition healthHandler (s : APIKeyStore) : Response :=
  {| StatusCode := StatusOK; ResponseBody := BodyString "OK" |}.

(** [readyHandler]. *)
Definition readyHandler (s : APIKeyStore) : Response :=
  let stats := GetStats s in
  if (index stats "total" =? 0)%nat then
    {| StatusCode := StatusServiceUnavailable;
       ResponseBody := BodyJSON {[ "error" := HString "No APIKeys loaded" ]} |}
  else {| StatusCode := StatusOK; ResponseBody := BodyString "Ready" |}.

(** [statsHandler]. *)
Definition statsHandler (s : APIKeyStore) : Response :=
  let stats := GetStats s in
  {| StatusCode := StatusOK;
     ResponseBody := BodyJSON {[ "total" := HInt (index stats "total");
                                 "enabled" := HInt (index stats "enabled");
                                 "disabled" := HInt (index stats "disabled") ]} |}.

(** The fields [parseAPIKey] reads from [spec], as the accessors see them: a
    string field that is absent or holds another type reads as the empty
    string, an [enabled] that is absent or is not a boolean reads as true. *)
Definition stringField (spec : gmap string unstructured.JValue) (field : string) : string :=
  match spec !! field with
  | Some (unstructured.JString v) => v
  | _ => EmptyString
  end.

Definition enabledField (spec : gmap string unstructured.JValue) : bool :=
  match spec !! "enabled" with
  | Some (unstructured.JBool b) => b
  | _ => true
  end.

(** The events the opened watches of [turns] deliver, in order. *)
Definition delivered (turns : list Turn) : list watch.Event :=
  concat (map (fun turn => match watcher turn with
                           | WatchError _ => []
                           | WatchChannel events => events
                           end) turns).

End server.

(** ** internal/server: the authorization server *)

Module authz.

(** The response of the ext_authz service, as far as the server fills it
    in. [codes.OK] is 0, [codes.PermissionDenied] is 7 and
    [StatusCode_Forbidden] is 403. *)
Definition codes_OK : Z := 0.
Definition codes_PermissionDenied : Z := 7.
Definition StatusCode_Forbidden : Z := 403.

Record Status : Type := { Code : Z; Message : string }.

Record HeaderValue : Type := { Key : string; Value : string }.

Inductive HttpResponse : Type :=
| OkResponse
| DeniedResponse (status : Z) (Body : string) (Headers : list HeaderValue).

Record CheckResponse : Type := {
  ResponseStatus : Status;
  ResponseHttp : HttpResponse
}.

(** [CheckRequest]: the nil-safe getters
    [GetAttributes().GetRequest().GetHttp().GetHeaders()] give the header
    map, empty when any part of the request is absent. *)
Record CheckRequest : Type := { GetHeaders : gmap string string }.

Record AuthorizationServer : Type := { store : server.APIKeyStore }.

(** The calls [Check] makes, in order: what it prints and what it asks of
    the [apikey] package and of the store. *)
Inductive Call : Type :=
| CallPrintf (line : string)
| CallHashAPIKey (apiKey : string)
| CallValidateKey (keyHash : string)
| CallGenerateHint (apiKey : string).

(** A result together with the calls made to obtain it. *)
Definition Traced (A : Type) : Type := (A * list Call)%type.

Definition ret {A : Type} (x : A) : Traced A := (x, []).

Definition bind {A B : Type} (m : Traced A) (k : A -> Traced B) : Traced B :=
  let '(x, t1) := m in
  let '(y, t2) := k x in
  (y, t1 ++ t2).

Definition Printf (line : string) : Traced unit := (tt, [CallPrintf line]).

Definition HashAPIKey (apiKey : string) : Traced string :=
  (apikey.HashAPIKey apiKey, [CallHashAPIKey apiKey]).

Definition ValidateKey (s : server.APIKeyStore) (keyHash : string) : Traced bool :=
  (server.ValidateKey s keyHash, [CallValidateKey keyHash]).

Definition GenerateHint (apiKey : string) : Traced string :=
  (apikey.GenerateHint apiKey, [CallGenerateHint apiKey]).

(** [extractAPIKey]: [Authorization: Bearer <key>] first, then
    [x-api-key: <key>]. *)
Definition extractAPIKey (headers : gmap string string) : string :=
  let bearer :=
    match headers !! "authorization" with
    | Some auth =>
        if gostrings.HasPrefix auth "Bearer "
        then Some (gostrings.TrimPrefix auth "Bearer ")
        else None
    | None => None
    end in
  match bearer with
  | Some key => key
  | None =>
      match headers !! "x-api-key" with
      | Some key => key
      | None => EmptyString
      end
  end.

Definition allowResponse : CheckResponse :=
  {| ResponseStatus := {| Code := codes_OK; Message := EmptyString |};
     ResponseHttp := OkResponse |}.

Definition denyResponse (message : string) : CheckResponse :=
  {| ResponseStatus := {| Code := codes_PermissionDenied; Message := message |};
     ResponseHttp :=
       DeniedResponse StatusCode_Forbidden message
         [ {| Key := "content-type"; Value := "text/plain" |} ] |}.

(** [Check]. The error it returns is always nil. *)
Definition Check (a : AuthorizationServer) (req : CheckRequest) : Traced CheckResponse :=
  let headers := GetHeaders req in
  let apiKey := extractAPIKey headers in
  if String.eqb apiKey EmptyString then
    bind (Printf "Denied: No API key provided") (fun _ =>
    ret (denyResponse "Missing API key"))
  else
    bind (HashAPIKey apiKey) (fun keyHash =>
    bind (ValidateKey (store a) keyHash) (fun valid =>
    if negb valid then
      bind (GenerateHint apiKey) (fun hint =>
      bind (Printf ("Denied: Invalid or disabled API key (hint: " +:+ hint +:+ ")")) (fun _ =>
      ret (denyResponse "Invalid or disabled API key")))
    else
      bind (Printf ("Allowed: Valid API key (hash: " +:+ substring 0 12 keyHash +:+ "...)")) (fun _ =>
      ret allowResponse))).

(** The decision a response carries: allow, or deny with its reason. *)
Inductive Decision : Type := ALLOW | DENY (reason : string).

Definition decision (r : CheckResponse) : Decision :=
  match ResponseHttp r with
  | OkResponse => ALLOW
  | DeniedResponse _ Body _ => DENY Body
  end.

End authz.

(** ** Sample data *)

Module sample.

Import models.

Definition entry (keyHash description : string) (enabled : bool) : APIKeyEntry :=
  {| Name := "user-at-example-com"; Email := "user@example.com"; KeyHash := keyHash;
     KeyHint := "sk-abc*************de"; Description := description; Enabled := enabled |}.

(** A document as the dynamic client decodes it, with every field set. *)
Definition document (keyHash description : string) (enabled : bool)
  : unstructured.Unstructured :=
  {| unstructured.Object :=
       {[ "metadata" := unstructured.JObject
            {[ "name" := unstructured.JString "user-at-example-com" ]};
          "spec" := unstructured.JObject
            {[ "email" := unstructured.JString "user@example.com";
               "keyHash" := unstructured.JString keyHash;
               "keyHint" := unstructured.JString "sk-abc*************de";
               "description" := unstructured.JString description;
               "enabled" := unstructured.JBool enabled ]} ]} |}.

(** A document whose [spec] has no [keyHash] and no [enabled]. *)
Definition document_without_keyHash : unstructured.Unstructured :=
  {| unstructured.Object :=
       {[ "spec" := unstructured.JObject
            {[ "email" := unstructured.JString "user@example.com" ]} ]} |}.

(** A document with no [spec] at all. *)
Definition document_without_spec : unstructured.Unstructured :=
  {| unstructured.Object :=
       {[ "metadata" := unstructured.JObject
            {[ "name" := unstructured.JString "user-at-example-com" ]} ]} |}.

Definition event (t : watch.EventType) (obj : unstructured.Unstructured) : watch.Event :=
  {| watch.Type_ := t; watch.Object := watch.UnstructuredObject obj |}.

Definition client_of (Items : list unstructured.Unstructured) : server.Client :=
  {| server.ListAll := server.ListItems Items;
     server.ListNamespace := fun _ => server.ListItems Items |}.

Definition store_of (m : gmap string APIKeyEntry) (Items : list unstructured.Unstructured)
  : server.APIKeyStore :=
  {| server.keyHashes := m; server.client := client_of Items; server.namespace := EmptyString |}.

Definition request (headers : gmap string string) : authz.CheckRequest :=
  {| authz.GetHeaders := headers |}.

Definition server_of (m : gmap string APIKeyEntry) : authz.AuthorizationServer :=
  {| authz.store := store_of m [] |}.

(** The [spec] of a document whose [enabled] is null, and the document. *)
Definition spec_with_null_enabled : gmap string unstructured.JValue :=
  {[ "keyHash" := unstructured.JString "aa"; "enabled" := unstructured.JNull ]}.

Definition document_with_null_enabled : unstructured.Unstructured :=
  {| unstructured.Object := {[ "spec" := unstructured.JObject spec_with_null_enabled ]} |}.

End sample.

(** * Properties *)

Import models.

(** ** The library functions on known inputs *)

Example Sum256_abc :
  apikey.HashAPIKey "abc"
  = "ba7816bf8f01cfea414140de5dae2223b00361a396177a9cb410ff61f20015ad".
Proof. vm_compute. reflexivity. Qed.

Example Sum256_empty :
  apikey.HashAPIKey EmptyString
  = "e3b0c44298fc1c149afbf4c8996fb92427ae41e4649b934ca495991b7852b855".
Proof. vm_compute. reflexivity. Qed.

Example Sum256_two_chunks :
  apikey.HashAPIKey "abcdbcdecdefdefgefghfghighijhijkijkljklmklmnlmnomnopnopq"
  = "248d6a61d20638b8e5c026930c3e6039a33ce45964ff2167f6ecedd419db06c1".
Proof. vm_compute. reflexivity. Qed.

(** The cases of [TestGenerateHint]. *)
Example GenerateHint_normal :
  apikey.GenerateHint "sk-abcdefghijklmnopqrstuvwxyz12345678" = "sk-abc*************78".
Proof. reflexivity. Qed.

Example GenerateHint_short_key : apikey.GenerateHint "sk-abc" = "sk-abc".
Proof. reflexivity. Qed.

Example GenerateHint_exactly_8 : apikey.GenerateHint "sk-12345" = "sk-123*************45".
Proof. reflexivity. Qed.

Example parseAPIKey_document :
  server.parseAPIKey (sample.document "aa" "Test key" true)
  = Some (sample.entry "aa" "Test key" true).
Proof. reflexivity. Qed.

(** ** Byte strings *)

Lemma length_append (s t : string) :
  String.length (s +:+ t) = (String.length s + String.length t)%nat.
Proof. induction s as [|c s IH]; simpl; [reflexivity | now rewrite IH]. Qed.

Lemma substring_whole (s : string) : substring 0 (String.length s) s = s.
Proof. induction s as [|c s IH]; simpl; [reflexivity | now rewrite IH]. Qed.

Lemma substring_nothing (s : string) : substring 0 0 s = EmptyString.
Proof. now destruct s. Qed.

Lemma length_substring (s : string) :
  forall n m : nat, (n + m <= String.length s)%nat -> String.length (substring n m s) = m.
Proof.
  induction s as [|c s IH]; intros n m Hle; simpl in *.
  - destruct n, m; simpl; lia.
  - destruct n as [|n].
    + destruct m as [|m]; [reflexivity |]. simpl. rewrite IH; lia.
    + apply IH. lia.
Qed.

(** ** The store *)

Lemma set_keyHashes_same (s : server.APIKeyStore) :
  server.set_keyHashes (server.keyHashes s) s = s.
Proof. now destruct s. Qed.

Lemma parseAPIKey_without_spec (obj : unstructured.Unstructured) :
  (forall spec, unstructured.Object obj !! "spec" <> Some (unstructured.JObject spec)) ->
  server.parseAPIKey obj = None.
Proof.
  intros Hspec. unfold server.parseAPIKey, unstructured.NestedMap,
    unstructured.NestedFieldNoCopy. simpl.
  destruct (unstructured.Object obj !! "spec") as [v|] eqn:E; [|reflexivity].
  destruct v; try reflexivity. now destruct (Hspec m).
Qed.

Lemma parseAPIKey_with_spec (obj : unstructured.Unstructured) (spec : gmap string unstructured.JValue) :
  unstructured.Object obj !! "spec" = Some (unstructured.JObject spec) ->
  exists entry, server.parseAPIKey obj = Some entry.
Proof.
  intros Hspec. unfold server.parseAPIKey, unstructured.NestedMap,
    unstructured.NestedFieldNoCopy. simpl. rewrite Hspec. simpl. eauto.
Qed.

(** C2. [ValidateKey h] is true exactly when the index holds a record under
    the key [h] whose [Enabled] flag is set; it is false when no record is
    stored under [h] and false when the record stored there is disabled, so
    the caller cannot tell the two apart. *)
Theorem ValidateKey_true_iff_enabled_record (s : server.APIKeyStore) (h : string) :
  (server.ValidateKey s h = true <->
     exists entry, server.keyHashes s !! h = Some entry /\ Enabled entry = true)
  /\ (server.keyHashes s !! h = None -> server.ValidateKey s h = false)
  /\ (forall entry, server.keyHashes s !! h = Some entry -> Enabled entry = false ->
        server.ValidateKey s h = false).
Proof.
  unfold server.ValidateKey. repeat split.
  - destruct (server.keyHashes s !! h) as [entry|]; [eauto | discriminate].
  - intros (entry & -> & Hen). exact Hen.
  - now intros ->.
  - now intros entry -> Hdis.
Qed.

Lemma ValidateKey_true_iff_enabled_record_witness :
  let h := apikey.HashAPIKey "sk-ABC" in
  server.ValidateKey (sample.store_of {[ h := sample.entry h "disabled" false ]} []) h = false
  /\ server.ValidateKey (sample.store_of ∅ []) h = false.
Proof.
  intros h. split.
  - apply (proj2 (proj2 (ValidateKey_true_iff_enabled_record
      (sample.store_of {[ h := sample.entry h "disabled" false ]} []) h))
      (sample.entry h "disabled" false)); reflexivity.
  - apply (proj1 (proj2 (ValidateKey_true_iff_enabled_record (sample.store_of ∅ []) h))).
    reflexivity.
Defined.

(** The index [syncAPIKeys] builds: the loop keeps, for each hash, the last
    entry parsed for it, and falls back on the map it started from. *)
Lemma fold_load_lookup (Items : list unstructured.Unstructured) :
  forall (m : gmap string APIKeyEntry) (h : string),
    fold_left server.load Items m !! h =
    match last (filter (fun e => KeyHash e = h) (omap server.parseAPIKey Items)) with
    | Some entry => Some entry
    | None => m !! h
    end.
Proof.
  induction Items as [|item Items IH]; intros m h; [reflexivity |].
  cbn [fold_left]. rewrite IH. unfold server.load.
  change (omap server.parseAPIKey (item :: Items))
    with (match server.parseAPIKey item with
          | Some entry => entry :: omap server.parseAPIKey Items
          | None => omap server.parseAPIKey Items
          end).
  destruct (server.parseAPIKey item) as [entry|]; [|reflexivity].
  rewrite filter_cons. destruct (decide (KeyHash entry = h)) as [Heq|Hne].
  - rewrite last_cons.
    destruct (last _); [reflexivity |]. subst h. apply lookup_insert_eq.
  - destruct (last _); [reflexivity |]. now apply lookup_insert_ne.
Qed.

(** C5. When the list call succeeds with [Items], [syncAPIKeys] returns no
    error and leaves an index that holds, under each hash [h], the last
    record of [Items] that parses and carries [h], and nothing when no
    parsed record carries [h]; the index it started from plays no part. *)
Theorem syncAPIKeys_replaces_index (s : server.APIKeyStore)
    (Items : list unstructured.Unstructured) :
  server.listAPIKeys s = server.ListItems Items ->
  (server.syncAPIKeys s).2 = None
  /\ (forall h : string,
        server.keyHashes (server.syncAPIKeys s).1 !! h =
        last (filter (fun e => KeyHash e = h) (omap server.parseAPIKey Items)))
  /\ (forall prior : gmap string APIKeyEntry,
        server.keyHashes (server.syncAPIKeys (server.set_keyHashes prior s)).1 =
        server.keyHashes (server.syncAPIKeys s).1).
Proof.
  intros Hlist. unfold server.syncAPIKeys.
  assert (Hprior : forall prior,
    server.listAPIKeys (server.set_keyHashes prior s) = server.ListItems Items)
    by (intros prior; exact Hlist).
  rewrite Hlist. repeat split.
  - intros h. simpl. rewrite fold_load_lookup, lookup_empty.
    now destruct (last _).
  - intros prior. now rewrite Hprior.
Qed.

Lemma syncAPIKeys_replaces_index_witness :
  let stale := sample.entry "00" "stale" true in
  let Items := [sample.document "aa" "first" true; sample.document_without_spec;
                sample.document "bb" "other" true; sample.document "aa" "second" false] in
  let s := sample.store_of {[ "00" := stale ]} Items in
  server.keyHashes (server.syncAPIKeys s).1 !! "aa" = Some (sample.entry "aa" "second" false)
  /\ server.keyHashes (server.syncAPIKeys s).1 !! "00" = None.
Proof.
  intros stale Items s.
  destruct (syncAPIKeys_replaces_index s Items eq_refl) as (_ & Hlookup & _).
  split; rewrite Hlookup; reflexivity.
Defined.

(** C7. An added event for the hash [h] followed by a deleted event for [h]
    leaves the index without an entry under [h]; a deleted event for a hash
    the index does not hold leaves the store as it was. *)
Theorem added_then_deleted_removes_key (s : server.APIKeyStore)
    (objA objD : unstructured.Unstructured) (entryA entryD : APIKeyEntry) (h : string) :
  server.parseAPIKey objD = Some entryD -> KeyHash entryD = h ->
  (server.parseAPIKey objA = Some entryA -> KeyHash entryA = h ->
   server.keyHashes
     (server.handleWatchEvent
        (server.handleWatchEvent s (sample.event watch.Added objA))
        (sample.event watch.Deleted objD)) !! h = None)
  /\ (server.keyHashes s !! h = None ->
      server.handleWatchEvent s (sample.event watch.Deleted objD) = s).
Proof.
  intros HD HhD. unfold server.handleWatchEvent. simpl. rewrite HD. split.
  - intros HA HhA. rewrite HA. simpl. subst h. rewrite HhA. apply lookup_delete_eq.
  - intros Habsent. rewrite HhD, delete_id by exact Habsent. apply set_keyHashes_same.
Qed.

Lemma added_then_deleted_removes_key_witness :
  let s := sample.store_of {[ "bb" := sample.entry "bb" "kept" true ]} [] in
  server.keyHashes
    (server.handleWatchEvent
       (server.handleWatchEvent s (sample.event watch.Added (sample.document "aa" "new" true)))
       (sample.event watch.Deleted (sample.document "aa" "new" true))) !! "aa" = None
  /\ server.handleWatchEvent s (sample.event watch.Deleted (sample.document "aa" "new" true)) = s.
Proof.
  intros s.
  destruct (added_then_deleted_removes_key s (sample.document "aa" "new" true)
              (sample.document "aa" "new" true) (sample.entry "aa" "new" true)
              (sample.entry "aa" "new" true) "aa" eq_refl eq_refl) as [Hgone Hnoop].
  split; [apply Hgone; reflexivity | apply Hnoop; reflexivity].
Defined.

(** C8. Two modified events [A] then [B] whose records carry the same hash
    leave, under that hash, the record of [B], with [B]'s [Enabled] and
    [Description]; the record of [A], where it differs, is not there. *)
Theorem modified_twice_last_wins (s : server.APIKeyStore)
    (objA objB : unstructured.Unstructured) (entryA entryB : APIKeyEntry) :
  server.parseAPIKey objA = Some entryA ->
  server.parseAPIKey objB = Some entryB ->
  KeyHash entryA = KeyHash entryB ->
  let s' := server.handleWatchEvent
              (server.handleWatchEvent s (sample.event watch.Modified objA))
              (sample.event watch.Modified objB) in
  server.keyHashes s' !! KeyHash entryB = Some entryB
  /\ (Enabled <$> server.keyHashes s' !! KeyHash entryB) = Some (Enabled entryB)
  /\ (Description <$> server.keyHashes s' !! KeyHash entryB) = Some (Description entryB)
  /\ (entryA <> entryB -> server.keyHashes s' !! KeyHash entryB <> Some entryA).
Proof.
  intros HA HB Hsame s'.
  assert (Hlookup : server.keyHashes s' !! KeyHash entryB = Some entryB).
  { subst s'. unfold server.handleWatchEvent. simpl. rewrite HA, HB. simpl.
    apply lookup_insert_eq. }
  rewrite Hlookup. repeat split. intros Hne [=]. now apply Hne.
Qed.

Lemma modified_twice_last_wins_witness :
  let s' := server.handleWatchEvent
              (server.handleWatchEvent (sample.store_of ∅ [])
                 (sample.event watch.Modified (sample.document "aa" "A" true)))
              (sample.event watch.Modified (sample.document "aa" "B" false)) in
  server.keyHashes s' !! "aa" = Some (sample.entry "aa" "B" false).
Proof.
  intros s'.
  exact (proj1 (modified_twice_last_wins (sample.store_of ∅ [])
    (sample.document "aa" "A" true) (sample.document "aa" "B" false)
    (sample.entry "aa" "A" true) (sample.entry "aa" "B" false) eq_refl eq_refl eq_refl)).
Defined.

(** C9, as stated, fails: the field can be present and the parsed flag not
    be its value. An [enabled] that holds the string "false" is not a
    boolean for [NestedBool], which reports it as not found, and the entry
    is enabled. *)
Lemma enabled_string_false_parses_true :
  let spec : gmap string unstructured.JValue :=
    {[ "keyHash" := unstructured.JString "aa";
       "enabled" := unstructured.JString "false" ]} in
  let obj := {| unstructured.Object := {[ "spec" := unstructured.JObject spec ]} |} in
  spec !! "enabled" = Some (unstructured.JString "false")
  /\ (Enabled <$> server.parseAPIKey obj) = Some true
  /\ (forall entry, server.parseAPIKey obj = Some entry ->
        spec !! "enabled" <> Some (unstructured.JBool (Enabled entry))).
Proof.
  intros spec obj. split; [reflexivity |]. split; [reflexivity |].
  intros entry Hparse. vm_compute. discriminate.
Qed.

(** C9, amended. A record whose [spec] has no [enabled] field parses to an
    entry with [Enabled] true; when the field holds a boolean, [Enabled] is
    that boolean; when the field is present and holds anything else (a
    string, a number, null, a list or a map), [Enabled] is true. *)
Theorem parseAPIKey_enabled_default (obj : unstructured.Unstructured)
    (spec : gmap string unstructured.JValue) :
  unstructured.Object obj !! "spec" = Some (unstructured.JObject spec) ->
  exists entry,
    server.parseAPIKey obj = Some entry
    /\ (spec !! "enabled" = None -> Enabled entry = true)
    /\ (forall b : bool, spec !! "enabled" = Some (unstructured.JBool b) -> Enabled entry = b)
    /\ (forall v, spec !! "enabled" = Some v -> (forall b, v <> unstructured.JBool b) ->
          Enabled entry = true).
Proof.
  intros Hspec. unfold server.parseAPIKey, unstructured.NestedMap,
    unstructured.NestedFieldNoCopy. simpl. rewrite Hspec. simpl.
  eexists. split; [reflexivity |]. simpl.
  unfold unstructured.NestedBool, unstructured.NestedFieldNoCopy. simpl.
  split; [|split].
  - now intros ->.
  - now intros b ->.
  - intros v -> Hother. destruct v; try reflexivity. now destruct (Hother b).
Qed.

Lemma parseAPIKey_enabled_default_witness :
  (Enabled <$> server.parseAPIKey sample.document_without_keyHash) = Some true
  /\ (Enabled <$> server.parseAPIKey (sample.document "aa" "off" false)) = Some false
  /\ (Enabled <$> server.parseAPIKey sample.document_with_null_enabled) = Some true.
Proof.
  split; [|split].
  - destruct (parseAPIKey_enabled_default sample.document_without_keyHash
                {[ "email" := unstructured.JString "user@example.com" ]} eq_refl)
      as (entry & -> & Habsent & _).
    simpl. f_equal. apply Habsent. reflexivity.
  - destruct (parseAPIKey_enabled_default (sample.document "aa" "off" false)
                {[ "email" := unstructured.JString "user@example.com";
                   "keyHash" := unstructured.JString "aa";
                   "keyHint" := unstructured.JString "sk-abc*************de";
                   "description" := unstructured.JString "off";
                   "enabled" := unstructured.JBool false ]} eq_refl)
      as (entry & -> & _ & Hpresent & _).
    simpl. f_equal. apply Hpresent. reflexivity.
  - destruct (parseAPIKey_enabled_default sample.document_with_null_enabled
                sample.spec_with_null_enabled eq_refl)
      as (entry & -> & _ & _ & Hother).
    simpl. f_equal. apply (Hother unstructured.JNull); [reflexivity | discriminate].
Defined.

(** C1, as stated, fails: an added event whose [spec] lacks [keyHash] is not
    discarded. [parseAPIKey] returns an entry whose [KeyHash] is the empty
    string and [handleWatchEvent] stores it under that key. *)
Lemma missing_keyHash_event_is_stored :
  let obj := sample.document_without_keyHash in
  let s := sample.store_of ∅ [] in
  let s' := server.handleWatchEvent s (sample.event watch.Added obj) in
  (exists spec, unstructured.Object obj !! "spec" = Some (unstructured.JObject spec)
                /\ spec !! "keyHash" = None)
  /\ s' <> s
  /\ server.keyHashes s' !! EmptyString =
       Some {| Name := EmptyString; Email := "user@example.com"; KeyHash := EmptyString; KeyHint := EmptyString;
               Description := EmptyString; Enabled := true |}.
Proof.
  intros obj s s'. split; [|split].
  - exists {[ "email" := unstructured.JString "user@example.com" ]}. split; reflexivity.
  - intros Heq. apply (f_equal (fun st => server.keyHashes st !! EmptyString)) in Heq.
    vm_compute in Heq. discriminate.
  - reflexivity.
Qed.

(** C1, amended. An event is discarded, the store left as it was, when its
    object is not an unstructured document or when the document has no
    [spec] map (the field is absent, or is not a map); nothing is then
    stored, under the empty hash or any other. *)
Theorem handleWatchEvent_discards_without_spec (s : server.APIKeyStore) (event : watch.Event) :
  (forall obj spec, watch.Object event = watch.UnstructuredObject obj ->
     unstructured.Object obj !! "spec" <> Some (unstructured.JObject spec)) ->
  server.handleWatchEvent s event = s
  /\ server.keyHashes (server.handleWatchEvent s event) !! EmptyString = server.keyHashes s !! EmptyString.
Proof.
  intros Hspec.
  assert (Hsame : server.handleWatchEvent s event = s).
  { unfold server.handleWatchEvent.
    destruct (watch.Object event) as [obj|] eqn:Hobj; [|reflexivity].
    rewrite parseAPIKey_without_spec; [reflexivity |].
    intros spec. now apply Hspec. }
  now rewrite Hsame.
Qed.

Lemma handleWatchEvent_discards_without_spec_witness :
  let s := sample.store_of {[ "aa" := sample.entry "aa" "kept" true ]} [] in
  server.handleWatchEvent s (sample.event watch.Added sample.document_without_spec) = s.
Proof.
  intros s.
  refine (proj1 (handleWatchEvent_discards_without_spec s
                   (sample.event watch.Added sample.document_without_spec) _)).
  intros obj spec [= <-]. vm_compute. discriminate.
Defined.

(** ** The check protocol *)

Lemma HasPrefix_Bearer (key : string) :
  gostrings.HasPrefix ("Bearer " +:+ key) "Bearer " = true.
Proof.
  unfold gostrings.HasPrefix. simpl. now rewrite substring_nothing.
Qed.

Lemma TrimPrefix_Bearer (key : string) :
  gostrings.TrimPrefix ("Bearer " +:+ key) "Bearer " = key.
Proof.
  unfold gostrings.TrimPrefix. rewrite HasPrefix_Bearer. simpl.
  rewrite Nat.sub_0_r. apply substring_whole.
Qed.

(** The key [extractAPIKey] finds decides the whole of [Check]. *)
Lemma Check_depends_on_key (a : authz.AuthorizationServer) (req1 req2 : authz.CheckRequest) :
  authz.extractAPIKey (authz.GetHeaders req1) = authz.extractAPIKey (authz.GetHeaders req2) ->
  authz.Check a req1 = authz.Check a req2.
Proof. intros Hkey. unfold authz.Check. now rewrite Hkey. Qed.

Lemma Check_missing (a : authz.AuthorizationServer) (req : authz.CheckRequest) :
  authz.extractAPIKey (authz.GetHeaders req) = EmptyString ->
  authz.Check a req =
    (authz.denyResponse "Missing API key", [authz.CallPrintf "Denied: No API key provided"]).
Proof. intros Hkey. unfold authz.Check. now rewrite Hkey. Qed.

Lemma Check_denied (a : authz.AuthorizationServer) (req : authz.CheckRequest) (apiKey : string) :
  authz.extractAPIKey (authz.GetHeaders req) = apiKey ->
  apiKey <> EmptyString ->
  server.ValidateKey (authz.store a) (apikey.HashAPIKey apiKey) = false ->
  authz.Check a req =
    (authz.denyResponse "Invalid or disabled API key",
     [authz.CallHashAPIKey apiKey;
      authz.CallValidateKey (apikey.HashAPIKey apiKey);
      authz.CallGenerateHint apiKey;
      authz.CallPrintf ("Denied: Invalid or disabled API key (hint: "
                        +:+ apikey.GenerateHint apiKey +:+ ")")]).
Proof.
  intros Hkey Hne Hinvalid. unfold authz.Check. rewrite Hkey.
  apply String.eqb_neq in Hne. rewrite Hne.
  unfold authz.bind, authz.HashAPIKey, authz.ValidateKey, authz.GenerateHint,
    authz.Printf, authz.ret.
  now rewrite Hinvalid.
Qed.

Lemma Check_allowed (a : authz.AuthorizationServer) (req : authz.CheckRequest) (apiKey : string) :
  authz.extractAPIKey (authz.GetHeaders req) = apiKey ->
  apiKey <> EmptyString ->
  server.ValidateKey (authz.store a) (apikey.HashAPIKey apiKey) = true ->
  authz.Check a req =
    (authz.allowResponse,
     [authz.CallHashAPIKey apiKey;
      authz.CallValidateKey (apikey.HashAPIKey apiKey);
      authz.CallPrintf ("Allowed: Valid API key (hash: "
                        +:+ substring 0 12 (apikey.HashAPIKey apiKey) +:+ "...)")]).
Proof.
  intros Hkey Hne Hvalid. unfold authz.Check. rewrite Hkey.
  apply String.eqb_neq in Hne. rewrite Hne.
  unfold authz.bind, authz.HashAPIKey, authz.ValidateKey, authz.Printf, authz.ret.
  now rewrite Hvalid.
Qed.

(** The digest is always 64 hexadecimal characters, so [keyHash[:12]] is
    within bounds. *)
Lemma length_hex32 (x : Z) : String.length (sha256.hex32 x) = 8%nat.
Proof. reflexivity. Qed.

Lemma length_HashAPIKey (apiKey : string) :
  String.length (apikey.HashAPIKey apiKey) = 64%nat.
Proof.
  unfold apikey.HashAPIKey, sha256.hex.
  repeat rewrite length_append. now repeat rewrite length_hex32.
Qed.

(** [GenerateHint] on a key of 8 bytes or more. *)
Lemma GenerateHint_masked (apiKey : string) :
  (8 <= String.length apiKey)%nat ->
  apikey.GenerateHint apiKey =
    substring 0 6 apiKey +:+ "*************"
    +:+ substring (String.length apiKey - 2) 2 apiKey.
Proof.
  intros Hlen. unfold apikey.GenerateHint.
  destruct (Nat.ltb_spec (String.length apiKey) 8); [lia | reflexivity].
Qed.

Lemma GenerateHint_short (apiKey : string) :
  (String.length apiKey < 8)%nat -> apikey.GenerateHint apiKey = apiKey.
Proof.
  intros Hlen. unfold apikey.GenerateHint.
  destruct (Nat.ltb_spec (String.length apiKey) 8); [reflexivity | lia].
Qed.

Lemma length_GenerateHint_masked (apiKey : string) :
  (8 <= String.length apiKey)%nat -> String.length (apikey.GenerateHint apiKey) = 21%nat.
Proof.
  intros Hlen. rewrite GenerateHint_masked by exact Hlen.
  rewrite !length_append, !length_substring by lia. reflexivity.
Qed.

Lemma Contains_length (s substr : string) :
  gostrings.Contains s substr -> (String.length substr <= String.length s)%nat.
Proof. intros (before & after & ->). rewrite !length_append. lia. Qed.

(** C3, as stated, fails: a presented value shorter than 8 bytes is denied
    with a hint that is the value itself. *)
Lemma short_key_is_logged_in_full :
  let req := sample.request {[ "x-api-key" := "abc" ]} in
  let result := authz.Check (sample.server_of ∅) req in
  authz.extractAPIKey (authz.GetHeaders req) = "abc"
  /\ authz.decision result.1 = authz.DENY "Invalid or disabled API key"
  /\ last result.2 = Some (authz.CallPrintf "Denied: Invalid or disabled API key (hint: abc)")
  /\ apikey.GenerateHint "abc" = "abc"
  /\ gostrings.Contains (apikey.GenerateHint "abc") "abc".
Proof.
  intros req result. repeat split; try reflexivity.
  exists EmptyString, EmptyString. reflexivity.
Qed.

(** C3, amended. On a deny decision for a presented value of 8 bytes or
    more, the hint [Check] prints is [GenerateHint]'s 21 bytes: the first 6
    bytes of the value, 13 stars and its last 2 bytes, the same for every
    value that shares those 8 bytes; for a value longer than 21 bytes the
    hint is not the value and does not contain it. A value shorter than 8
    bytes is printed as it is. On an allow decision [Check] prints the first
    12 characters of the 64-character digest. *)
Theorem Check_logs_masked_hint (a : authz.AuthorizationServer) (req : authz.CheckRequest)
    (apiKey : string) :
  authz.extractAPIKey (authz.GetHeaders req) = apiKey ->
  apiKey <> EmptyString ->
  (server.ValidateKey (authz.store a) (apikey.HashAPIKey apiKey) = false ->
     authz.Check a req =
       (authz.denyResponse "Invalid or disabled API key",
        [authz.CallHashAPIKey apiKey;
         authz.CallValidateKey (apikey.HashAPIKey apiKey);
         authz.CallGenerateHint apiKey;
         authz.CallPrintf ("Denied: Invalid or disabled API key (hint: "
                           +:+ apikey.GenerateHint apiKey +:+ ")")])
     /\ ((8 <= String.length apiKey)%nat ->
           apikey.GenerateHint apiKey =
             substring 0 6 apiKey +:+ "*************"
             +:+ substring (String.length apiKey - 2) 2 apiKey
           /\ String.length (apikey.GenerateHint apiKey) = 21%nat
           /\ forall other : string,
                (8 <= String.length other)%nat ->
                substring 0 6 other = substring 0 6 apiKey ->
                substring (String.length other - 2) 2 other =
                  substring (String.length apiKey - 2) 2 apiKey ->
                apikey.GenerateHint other = apikey.GenerateHint apiKey)
     /\ ((21 < String.length apiKey)%nat ->
           apikey.GenerateHint apiKey <> apiKey
           /\ ~ gostrings.Contains (apikey.GenerateHint apiKey) apiKey)
     /\ ((String.length apiKey < 8)%nat -> apikey.GenerateHint apiKey = apiKey))
  /\ (server.ValidateKey (authz.store a) (apikey.HashAPIKey apiKey) = true ->
     authz.Check a req =
       (authz.allowResponse,
        [authz.CallHashAPIKey apiKey;
         authz.CallValidateKey (apikey.HashAPIKey apiKey);
         authz.CallPrintf ("Allowed: Valid API key (hash: "
                           +:+ substring 0 12 (apikey.HashAPIKey apiKey) +:+ "...)")])
     /\ String.length (substring 0 12 (apikey.HashAPIKey apiKey)) = 12%nat
     /\ String.length (apikey.HashAPIKey apiKey) = 64%nat).
Proof.
  intros Hkey Hne. split.
  - intros Hinvalid. split; [now apply Check_denied |]. split; [|split].
    + intros Hlen. split; [now apply GenerateHint_masked |].
      split; [now apply length_GenerateHint_masked |].
      intros other Hother Hfirst Hlast.
      rewrite !GenerateHint_masked by assumption. now rewrite Hfirst, Hlast.
    + intros Hlong.
      assert (Hhint : String.length (apikey.GenerateHint apiKey) = 21%nat)
        by (apply length_GenerateHint_masked; lia).
      split.
      * intros Heq. rewrite Heq in Hhint. lia.
      * intros Hin. apply Contains_length in Hin. lia.
    + apply GenerateHint_short.
  - intros Hvalid. split; [now apply Check_allowed |].
    split; [|apply length_HashAPIKey].
    apply length_substring. rewrite length_HashAPIKey. lia.
Qed.

Lemma Check_logs_masked_hint_witness :
  let apiKey := "sk-abcdefghijklmnopqrstuvwxyz12345678" in
  let req := sample.request {[ "authorization" := "Bearer " +:+ apiKey ]} in
  (authz.Check (sample.server_of ∅) req).2 =
    [authz.CallHashAPIKey apiKey;
     authz.CallValidateKey (apikey.HashAPIKey apiKey);
     authz.CallGenerateHint apiKey;
     authz.CallPrintf ("Denied: Invalid or disabled API key (hint: "
                       +:+ apikey.GenerateHint apiKey +:+ ")")]
  /\ apikey.GenerateHint apiKey = "sk-abc*************78"
  /\ apikey.GenerateHint apiKey <> apiKey.
Proof.
  intros apiKey req.
  assert (Hne : apiKey <> EmptyString) by discriminate.
  destruct (Check_logs_masked_hint (sample.server_of ∅) req apiKey eq_refl Hne)
    as [Hdeny _].
  destruct (Hdeny eq_refl) as (Hcheck & Hmasked & Hlong & _).
  assert (H8 : (8 <= String.length apiKey)%nat) by (vm_compute; lia).
  assert (H21 : (21 < String.length apiKey)%nat) by (vm_compute; lia).
  destruct (Hmasked H8) as (Hform & _ & _).
  split; [now rewrite Hcheck |].
  split; [now rewrite Hform | exact (proj1 (Hlong H21))].
Defined.

(** C4. When the headers hold no bearer [authorization] value and no
    [x-api-key] field, [Check] denies with "Missing API key" and its only
    call is the print of the refusal: the key is not hashed and
    [ValidateKey] is not called. *)
Theorem Check_without_key_skips_lookup (a : authz.AuthorizationServer)
    (req : authz.CheckRequest) :
  (forall auth, authz.GetHeaders req !! "authorization" = Some auth ->
                gostrings.HasPrefix auth "Bearer " = false) ->
  authz.GetHeaders req !! "x-api-key" = None ->
  authz.decision (authz.Check a req).1 = authz.DENY "Missing API key"
  /\ (authz.Check a req).1 = authz.denyResponse "Missing API key"
  /\ (authz.Check a req).2 = [authz.CallPrintf "Denied: No API key provided"]
  /\ (forall keyHash, ~ In (authz.CallValidateKey keyHash) (authz.Check a req).2).
Proof.
  intros Hauth Hkey.
  assert (Hnone : authz.extractAPIKey (authz.GetHeaders req) = EmptyString).
  { unfold authz.extractAPIKey. rewrite Hkey.
    destruct (authz.GetHeaders req !! "authorization") as [auth|]; [|reflexivity].
    now rewrite (Hauth auth eq_refl). }
  rewrite (Check_missing a req Hnone). repeat split.
  intros keyHash [Hin|[]]. discriminate.
Qed.

Lemma Check_without_key_skips_lookup_witness :
  let h := apikey.HashAPIKey "sk-ABC" in
  let a := sample.server_of {[ h := sample.entry h "live" true ]} in
  let req := sample.request {[ "authorization" := "Basic sk-ABC"; "host" := "example.com" ]} in
  (authz.Check a req).2 = [authz.CallPrintf "Denied: No API key provided"].
Proof.
  intros h a req.
  refine (proj1 (proj2 (proj2 (Check_without_key_skips_lookup a req _ _)))).
  - intros auth Hauth. vm_compute in Hauth. injection Hauth as <-. reflexivity.
  - reflexivity.
Defined.

Lemma extractAPIKey_bearer (headers : gmap string string) (key : string) :
  authz.extractAPIKey (<["authorization" := "Bearer " +:+ key]> headers) = key.
Proof.
  unfold authz.extractAPIKey. rewrite lookup_insert_eq.
  rewrite HasPrefix_Bearer. apply TrimPrefix_Bearer.
Qed.

Lemma extractAPIKey_x_api_key (headers : gmap string string) (key : string) :
  authz.extractAPIKey (<["x-api-key" := key]> (delete "authorization" headers)) = key.
Proof.
  unfold authz.extractAPIKey.
  rewrite lookup_insert_ne by discriminate.
  now rewrite lookup_delete_eq, lookup_insert_eq.
Qed.

(** C6. For every store and every credential [key], the request that
    presents [key] as [authorization: Bearer key] and the request that
    presents it as [x-api-key: key] get the same answer from [Check]: the
    same response, hence the same decision and the same deny reason, and
    the same calls. This holds whatever other headers the two requests
    share, and for the two single-header requests in particular. *)
Theorem bearer_and_x_api_key_same_decision (a : authz.AuthorizationServer)
    (headers : gmap string string) (key : string) :
  let bearer := sample.request (<["authorization" := "Bearer " +:+ key]> headers) in
  let direct := sample.request (<["x-api-key" := key]> (delete "authorization" headers)) in
  authz.Check a bearer = authz.Check a direct
  /\ authz.decision (authz.Check a bearer).1 = authz.decision (authz.Check a direct).1
  /\ authz.decision (authz.Check a (sample.request {[ "authorization" := "Bearer " +:+ key ]})).1
     = authz.decision (authz.Check a (sample.request {[ "x-api-key" := key ]})).1.
Proof.
  intros bearer direct.
  assert (Hsame : forall hs,
    authz.Check a (sample.request (<["authorization" := "Bearer " +:+ key]> hs)) =
    authz.Check a (sample.request (<["x-api-key" := key]> (delete "authorization" hs)))).
  { intros hs. apply Check_depends_on_key. simpl.
    now rewrite extractAPIKey_bearer, extractAPIKey_x_api_key. }
  split; [apply Hsame |]. split; [subst bearer direct; now rewrite Hsame |].
  specialize (Hsame ∅). rewrite delete_empty in Hsame.
  change (<["authorization" := "Bearer " +:+ key]> (∅ : gmap string string))
    with ({[ "authorization" := "Bearer " +:+ key ]} : gmap string string) in Hsame.
  change (<["x-api-key" := key]> (∅ : gmap string string))
    with ({[ "x-api-key" := key ]} : gmap string string) in Hsame.
  now rewrite Hsame.
Qed.

(** C10. When the [authorization] header is present and its value does not
    start with the exact bytes ["Bearer "], [extractAPIKey] returns what it
    returns without that header: the [x-api-key] value, or the empty string.
    [Check] then answers as if the header were absent; the only key it
    hashes and looks up is the [x-api-key] value, and with no [x-api-key]
    header it denies with "Missing API key" after a single print. *)
Theorem non_bearer_authorization_ignored (a : authz.AuthorizationServer)
    (req : authz.CheckRequest) (auth : string) :
  authz.GetHeaders req !! "authorization" = Some auth ->
  gostrings.HasPrefix auth "Bearer " = false ->
  authz.extractAPIKey (authz.GetHeaders req)
    = default EmptyString (authz.GetHeaders req !! "x-api-key")
  /\ authz.extractAPIKey (authz.GetHeaders req)
     = authz.extractAPIKey (delete "authorization" (authz.GetHeaders req))
  /\ authz.Check a req
     = authz.Check a (sample.request (delete "authorization" (authz.GetHeaders req)))
  /\ (forall apiKey, In (authz.CallHashAPIKey apiKey) (authz.Check a req).2 ->
        authz.GetHeaders req !! "x-api-key" = Some apiKey)
  /\ (forall keyHash, In (authz.CallValidateKey keyHash) (authz.Check a req).2 ->
        exists apiKey, authz.GetHeaders req !! "x-api-key" = Some apiKey
                       /\ keyHash = apikey.HashAPIKey apiKey)
  /\ (authz.GetHeaders req !! "x-api-key" = None ->
        authz.Check a req =
          (authz.denyResponse "Missing API key",
           [authz.CallPrintf "Denied: No API key provided"])).
Proof.
  intros Hauth Hprefix.
  assert (Hkey : authz.extractAPIKey (authz.GetHeaders req)
                 = default EmptyString (authz.GetHeaders req !! "x-api-key")).
  { unfold authz.extractAPIKey. rewrite Hauth, Hprefix.
    now destruct (authz.GetHeaders req !! "x-api-key"). }
  assert (Hdel : authz.extractAPIKey (delete "authorization" (authz.GetHeaders req))
                 = default EmptyString (authz.GetHeaders req !! "x-api-key")).
  { unfold authz.extractAPIKey. rewrite lookup_delete_eq.
    rewrite lookup_delete_ne by discriminate.
    now destruct (authz.GetHeaders req !! "x-api-key"). }
  split; [exact Hkey |]. split; [now rewrite Hdel |].
  split; [apply Check_depends_on_key; simpl; now rewrite Hdel |].
  destruct (authz.GetHeaders req !! "x-api-key") as [key|] eqn:Hx; simpl in Hkey.
  - destruct (String.eqb_spec key EmptyString) as [Hempty|Hne].
    + rewrite Hempty in Hkey. rewrite (Check_missing a req Hkey). simpl.
      repeat split; try discriminate.
      * intros apiKey [Hin|[]]. discriminate.
      * intros keyHash [Hin|[]]. discriminate.
    + destruct (server.ValidateKey (authz.store a) (apikey.HashAPIKey key)) eqn:Hvalid.
      * rewrite (Check_allowed a req key Hkey Hne Hvalid). simpl.
        repeat split; try discriminate.
        -- intros apiKey [Hin|[Hin|[Hin|[]]]]; try discriminate. now injection Hin as ->.
        -- intros keyHash [Hin|[Hin|[Hin|[]]]]; try discriminate.
           injection Hin as <-. now exists key.
      * rewrite (Check_denied a req key Hkey Hne Hvalid). simpl.
        repeat split; try discriminate.
        -- intros apiKey [Hin|[Hin|[Hin|[Hin|[]]]]]; try discriminate.
           now injection Hin as ->.
        -- intros keyHash [Hin|[Hin|[Hin|[Hin|[]]]]]; try discriminate.
           injection Hin as <-. now exists key.
  - rewrite (Check_missing a req Hkey). simpl. repeat split.
    + intros apiKey [Hin|[]]. discriminate.
    + intros keyHash [Hin|[]]. discriminate.
Qed.

Lemma non_bearer_authorization_ignored_witness :
  let h := apikey.HashAPIKey "sk-ABC" in
  let a := sample.server_of {[ h := sample.entry h "live" true ]} in
  let req := sample.request {[ "authorization" := "bearer sk-ABC" ]} in
  authz.Check a req =
    (authz.denyResponse "Missing API key", [authz.CallPrintf "Denied: No API key provided"]).
Proof.
  intros h a req.
  destruct (non_bearer_authorization_ignored a req "bearer sk-ABC" eq_refl eq_refl)
    as (_ & _ & _ & _ & _ & Hmissing).
  apply Hmissing. reflexivity.
Defined.

(** * Further properties of the store *)

(** The entries of an index that are enabled, and those that are not. *)
Lemma tally_counts (m : gmap string APIKeyEntry) :
  let acc := map_fold server.tally (0%nat, 0%nat) m in
  acc.1 = size (filter (fun kv => Enabled kv.2 = true) m)
  /\ acc.2 = size (filter (fun kv => Enabled kv.2 = false) m)
  /\ (acc.1 + acc.2 = size m)%nat.
Proof.
  apply (map_fold_weak_ind (fun acc m =>
    acc.1 = size (filter (fun kv => Enabled kv.2 = true) m)
    /\ acc.2 = size (filter (fun kv => Enabled kv.2 = false) m)
    /\ (acc.1 + acc.2 = size m)%nat)).
  - rewrite !map_filter_empty, !map_size_empty. auto.
  - intros h entry m' acc Hfresh (Hen & Hdis & Htot).
    rewrite map_size_insert_None by exact Hfresh.
    unfold server.tally. destruct (Enabled entry) eqn:Hflag; simpl.
    + rewrite map_filter_insert_True by exact Hflag.
      rewrite map_size_insert_None
        by (apply map_lookup_filter_None; left; exact Hfresh).
      rewrite map_filter_insert_not' by (simpl; intros; congruence).
      repeat split; lia.
    + rewrite (map_filter_insert_True (fun kv => Enabled kv.2 = false)) by exact Hflag.
      rewrite (map_size_insert_None _ _ (filter (fun kv => Enabled kv.2 = false) m'))
        by (apply map_lookup_filter_None; left; exact Hfresh).
      rewrite map_filter_insert_not' by (simpl; intros; congruence).
      repeat split; lia.
Qed.

Lemma GetStats_fields (s : server.APIKeyStore) :
  server.index (server.GetStats s) "total" = size (server.keyHashes s)
  /\ server.index (server.GetStats s) "enabled"
     = (map_fold server.tally (0%nat, 0%nat) (server.keyHashes s)).1
  /\ server.index (server.GetStats s) "disabled"
     = (map_fold server.tally (0%nat, 0%nat) (server.keyHashes s)).2.
Proof.
  unfold server.GetStats, server.index.
  destruct (map_fold server.tally (0%nat, 0%nat) (server.keyHashes s)) as [enabled disabled].
  split; [|split].
  - now rewrite lookup_insert_eq.
  - rewrite lookup_insert_ne by discriminate. now rewrite lookup_insert_eq.
  - rewrite !lookup_insert_ne by discriminate. now rewrite lookup_singleton_eq.
Qed.

(** X1. [GetStats] reports as [total] the number of entries in the index, as
    [enabled] the number of entries whose flag is set and as [disabled] the
    number of the others, so that [total = enabled + disabled]. *)
Theorem GetStats_total_splits (s : server.APIKeyStore) :
  let stats := server.GetStats s in
  server.index stats "total" = size (server.keyHashes s)
  /\ server.index stats "enabled"
     = size (filter (fun kv => Enabled kv.2 = true) (server.keyHashes s))
  /\ server.index stats "disabled"
     = size (filter (fun kv => Enabled kv.2 = false) (server.keyHashes s))
  /\ server.index stats "total"
     = (server.index stats "enabled" + server.index stats "disabled")%nat.
Proof.
  intros stats. subst stats.
  destruct (GetStats_fields s) as (-> & -> & ->).
  destruct (tally_counts (server.keyHashes s)) as (Hen & Hdis & Htot).
  simpl in *. rewrite <- Hen, <- Hdis. repeat split. lia.
Qed.

(** X2. A hash can validate only if [GetStats] counts an enabled entry:
    when [enabled] is 0, [ValidateKey] is false for every hash. *)
Theorem no_enabled_entry_no_valid_key (s : server.APIKeyStore) :
  server.index (server.GetStats s) "enabled" = 0%nat ->
  forall h : string, server.ValidateKey s h = false.
Proof.
  intros Hzero h.
  destruct (GetStats_fields s) as (_ & Hen & _). rewrite Hen in Hzero.
  rewrite (proj1 (tally_counts (server.keyHashes s))) in Hzero.
  apply map_size_empty_inv in Hzero.
  unfold server.ValidateKey.
  destruct (server.keyHashes s !! h) as [entry|] eqn:Hlookup; [|reflexivity].
  destruct (Enabled entry) eqn:Hflag; [|reflexivity].
  assert (Hin : filter (fun kv => Enabled kv.2 = true) (server.keyHashes s) !! h = Some entry)
    by (apply map_lookup_filter_Some; split; assumption).
  rewrite Hzero in Hin. now rewrite lookup_empty in Hin.
Qed.

Lemma no_enabled_entry_no_valid_key_witness :
  server.ValidateKey
    (sample.store_of {[ "aa" := sample.entry "aa" "off" false;
                        "bb" := sample.entry "bb" "off too" false ]} []) "aa" = false.
Proof.
  apply no_enabled_entry_no_valid_key. vm_compute. reflexivity.
Defined.

(** X3. [readyHandler] answers 503 with the error body exactly when the
    index is empty, and 200 "Ready" otherwise; disabled entries count, so a
    store holding only disabled keys is ready. *)
Theorem readyHandler_ready_iff_nonempty (s : server.APIKeyStore) :
  (server.keyHashes s = ∅ ->
     server.readyHandler s =
       {| server.StatusCode := 503;
          server.ResponseBody :=
            server.BodyJSON {[ "error" := server.HString "No APIKeys loaded" ]} |})
  /\ (server.keyHashes s <> ∅ ->
     server.readyHandler s =
       {| server.StatusCode := 200; server.ResponseBody := server.BodyString "Ready" |})
  /\ (forall h entry, server.keyHashes s !! h = Some entry ->
     server.StatusCode (server.readyHandler s) = 200).
Proof.
  unfold server.readyHandler.
  destruct (GetStats_fields s) as (-> & _ & _).
  assert (Hnonempty : server.keyHashes s <> ∅ ->
            (size (server.keyHashes s) =? 0)%nat = false).
  { intros Hne. apply Nat.eqb_neq. now apply map_size_non_empty_iff. }
  repeat split.
  - intros ->. now rewrite map_size_empty.
  - intros Hne. now rewrite (Hnonempty Hne).
  - intros h entry Hlookup. rewrite Hnonempty; [reflexivity |].
    intros Hempty. rewrite Hempty in Hlookup. now rewrite lookup_empty in Hlookup.
Qed.

Lemma readyHandler_ready_iff_nonempty_witness :
  server.StatusCode (server.readyHandler (sample.store_of ∅ [])) = 503
  /\ server.StatusCode
       (server.readyHandler (sample.store_of {[ "aa" := sample.entry "aa" "off" false ]} []))
     = 200.
Proof.
  split.
  - exact (f_equal server.StatusCode
             (proj1 (readyHandler_ready_iff_nonempty (sample.store_of ∅ [])) eq_refl)).
  - apply (proj2 (proj2 (readyHandler_ready_iff_nonempty
      (sample.store_of {[ "aa" := sample.entry "aa" "off" false ]} [])))
      "aa" (sample.entry "aa" "off" false)).
    reflexivity.
Defined.

(** X4. When the list call fails, [syncAPIKeys] and [Start] leave the store
    as it was; [Start] returns the error wrapped as "failed initial sync:
    failed to list APIKeys: ..." and does not start the watcher. When the
    list call succeeds, [Start] returns no error, starts the watcher and
    leaves the store [syncAPIKeys] built. *)
Theorem Start_fails_only_with_list (s : server.APIKeyStore) :
  (forall err, server.listAPIKeys s = server.ListError err ->
     server.syncAPIKeys s = (s, Some ("failed to list APIKeys: " +:+ err))
     /\ server.Start s =
          (s, Some ("failed initial sync: " +:+ "failed to list APIKeys: " +:+ err), false))
  /\ (forall Items, server.listAPIKeys s = server.ListItems Items ->
     server.Start s = ((server.syncAPIKeys s).1, None, true)
     /\ server.keyHashes (server.Start s).1.1 = fold_left server.load Items ∅).
Proof.
  unfold server.Start, server.syncAPIKeys. split.
  - intros err ->. split; reflexivity.
  - intros Items ->. split; reflexivity.
Qed.

Lemma Start_fails_only_with_list_witness :
  let s := {| server.keyHashes := {[ "aa" := sample.entry "aa" "kept" true ]};
              server.client := {| server.ListAll := server.ListError "connection refused";
                                  server.ListNamespace := fun _ => server.ListItems [] |};
              server.namespace := EmptyString |} in
  server.Start s =
    (s, Some "failed initial sync: failed to list APIKeys: connection refused", false)
  /\ server.keyHashes
       (server.Start (sample.store_of ∅ [sample.document "aa" "new" true])).1.1 !! "aa"
     = Some (sample.entry "aa" "new" true).
Proof.
  intros s. split.
  - exact (proj2 (proj1 (Start_fails_only_with_list s) "connection refused" eq_refl)).
  - rewrite (proj2 (proj2 (Start_fails_only_with_list
               (sample.store_of ∅ [sample.document "aa" "new" true]))
               [sample.document "aa" "new" true] eq_refl)).
    reflexivity.
Defined.

(** X5. [parseAPIKey] returns nil exactly when the document has no [spec]
    map. Otherwise the entry takes [Name] from [metadata.name] and every
    other field from [spec] as the typed accessors read it: a string field
    that is absent or of another type becomes the empty string, and an
    [enabled] that is absent or is not a boolean becomes true. *)
Theorem parseAPIKey_reads_typed_fields (obj : unstructured.Unstructured) :
  (server.parseAPIKey obj = None <->
     forall spec, unstructured.Object obj !! "spec" <> Some (unstructured.JObject spec))
  /\ (forall spec, unstructured.Object obj !! "spec" = Some (unstructured.JObject spec) ->
        server.parseAPIKey obj =
          Some {| Name := unstructured.GetName obj;
                  Email := server.stringField spec "email";
                  KeyHash := server.stringField spec "keyHash";
                  KeyHint := server.stringField spec "keyHint";
                  Description := server.stringField spec "description";
                  Enabled := server.enabledField spec |}).
Proof.
  assert (Hfields : forall spec,
    unstructured.Object obj !! "spec" = Some (unstructured.JObject spec) ->
    server.parseAPIKey obj =
      Some {| Name := unstructured.GetName obj;
              Email := server.stringField spec "email";
              KeyHash := server.stringField spec "keyHash";
              KeyHint := server.stringField spec "keyHint";
              Description := server.stringField spec "description";
              Enabled := server.enabledField spec |}).
  { intros spec Hspec.
    unfold server.parseAPIKey, unstructured.NestedMap, unstructured.NestedFieldNoCopy.
    simpl. rewrite Hspec. simpl.
    unfold unstructured.NestedString, unstructured.NestedBool,
      unstructured.NestedFieldNoCopy, server.stringField, server.enabledField. simpl.
    f_equal. f_equal.
    - destruct (spec !! "email") as [[]|]; reflexivity.
    - destruct (spec !! "keyHash") as [[]|]; reflexivity.
    - destruct (spec !! "keyHint") as [[]|]; reflexivity.
    - destruct (spec !! "description") as [[]|]; reflexivity.
    - destruct (spec !! "enabled") as [[]|]; reflexivity. }
  split; [split |exact Hfields].
  - intros Hnone spec Hspec. rewrite (Hfields spec Hspec) in Hnone. discriminate.
  - apply parseAPIKey_without_spec.
Qed.

Lemma parseAPIKey_reads_typed_fields_witness :
  let spec : gmap string unstructured.JValue :=
    {[ "keyHash" := unstructured.JString "aa";
       "email" := unstructured.JInt 42;
       "enabled" := unstructured.JString "false" ]} in
  server.parseAPIKey {| unstructured.Object := {[ "spec" := unstructured.JObject spec ]} |}
  = Some {| Name := EmptyString; Email := EmptyString; KeyHash := "aa";
            KeyHint := EmptyString; Description := EmptyString; Enabled := true |}.
Proof.
  intros spec.
  exact (proj2 (parseAPIKey_reads_typed_fields
                  {| unstructured.Object := {[ "spec" := unstructured.JObject spec ]} |})
               spec eq_refl).
Defined.

(** X6. An event touches one key at most. The client and the namespace of
    the store stay as they are, and so does the entry under every hash other
    than the one the event's record carries. *)
Theorem handleWatchEvent_leaves_other_keys (s : server.APIKeyStore) (event : watch.Event)
    (h : string) :
  (forall obj entry, watch.Object event = watch.UnstructuredObject obj ->
     server.parseAPIKey obj = Some entry -> KeyHash entry <> h) ->
  server.keyHashes (server.handleWatchEvent s event) !! h = server.keyHashes s !! h
  /\ server.client (server.handleWatchEvent s event) = server.client s
  /\ server.namespace (server.handleWatchEvent s event) = server.namespace s.
Proof.
  intros Hother. unfold server.handleWatchEvent.
  destruct (watch.Object event) as [obj|]; [|auto].
  destruct (server.parseAPIKey obj) as [entry|] eqn:Hparse; [|auto].
  specialize (Hother obj entry eq_refl Hparse).
  destruct (watch.Type_ event); simpl; repeat split.
  - now rewrite lookup_insert_ne.
  - now rewrite lookup_insert_ne.
  - now rewrite lookup_delete_ne.
Qed.

Lemma handleWatchEvent_leaves_other_keys_witness :
  let s := sample.store_of {[ "bb" := sample.entry "bb" "kept" true ]} [] in
  server.keyHashes
    (server.handleWatchEvent s (sample.event watch.Deleted (sample.document "aa" "gone" true)))
    !! "bb" = Some (sample.entry "bb" "kept" true).
Proof.
  intros s.
  refine (eq_trans (proj1 (handleWatchEvent_leaves_other_keys s
    (sample.event watch.Deleted (sample.document "aa" "gone" true)) "bb" _)) eq_refl).
  intros obj entry [= <-] [= <-]. discriminate.
Defined.

(** X7. A bookmark or an error event never changes the store, whatever
    object it carries. *)
Theorem handleWatchEvent_ignores_bookmark_and_error (s : server.APIKeyStore)
    (event : watch.Event) :
  watch.Type_ event = watch.Bookmark \/ watch.Type_ event = watch.Error ->
  server.handleWatchEvent s event = s.
Proof.
  intros Htype. unfold server.handleWatchEvent.
  destruct (watch.Object event) as [obj|]; [|reflexivity].
  destruct (server.parseAPIKey obj); [|reflexivity].
  now destruct Htype as [-> | ->].
Qed.

Lemma handleWatchEvent_ignores_bookmark_and_error_witness :
  let s := sample.store_of {[ "aa" := sample.entry "aa" "kept" true ]} [] in
  server.handleWatchEvent s (sample.event watch.Bookmark (sample.document "aa" "x" false)) = s.
Proof.
  intros s. apply handleWatchEvent_ignores_bookmark_and_error. left. reflexivity.
Defined.

(** X8. Applying the same event twice leaves the store that applying it
    once leaves: a replayed event does no harm. *)
Theorem handleWatchEvent_idempotent (s : server.APIKeyStore) (event : watch.Event) :
  server.handleWatchEvent (server.handleWatchEvent s event) event
  = server.handleWatchEvent s event.
Proof.
  unfold server.handleWatchEvent.
  destruct (watch.Object event) as [obj|]; [|reflexivity].
  destruct (server.parseAPIKey obj) as [entry|]; [|reflexivity].
  destruct (watch.Type_ event); try reflexivity; unfold server.set_keyHashes; simpl.
  - now rewrite insert_insert_eq.
  - now rewrite insert_insert_eq.
  - now rewrite delete_delete_eq.
Qed.

(** X9. After an added or a modified event, [ValidateKey] on the hash of the
    event's record returns that record's [Enabled] flag; after a deleted
    event it returns false. *)
Theorem ValidateKey_after_event (s : server.APIKeyStore)
    (obj : unstructured.Unstructured) (entry : APIKeyEntry) :
  server.parseAPIKey obj = Some entry ->
  server.ValidateKey (server.handleWatchEvent s (sample.event watch.Added obj))
    (KeyHash entry) = Enabled entry
  /\ server.ValidateKey (server.handleWatchEvent s (sample.event watch.Modified obj))
       (KeyHash entry) = Enabled entry
  /\ server.ValidateKey (server.handleWatchEvent s (sample.event watch.Deleted obj))
       (KeyHash entry) = false.
Proof.
  intros Hparse. unfold server.ValidateKey, server.handleWatchEvent. simpl.
  rewrite Hparse. simpl.
  rewrite lookup_insert_eq, lookup_delete_eq. auto.
Qed.

Lemma ValidateKey_after_event_witness :
  server.ValidateKey
    (server.handleWatchEvent (sample.store_of ∅ [])
       (sample.event watch.Added (sample.document "aa" "new" true))) "aa" = true.
Proof.
  exact (proj1 (ValidateKey_after_event (sample.store_of ∅ [])
                  (sample.document "aa" "new" true) (sample.entry "aa" "new" true) eq_refl)).
Defined.

(** The watch loop while neither the stop channel nor the context ends it. *)
Lemma watchAPIKeys_running (turns : list server.Turn) :
  Forall (fun turn => server.stopClosed turn = false /\ server.ctxDone turn = false) turns ->
  forall s, server.watchAPIKeys s turns
            = fold_left server.handleWatchEvent (server.delivered turns) s.
Proof.
  induction 1 as [|turn turns [Hstop Hctx] _ IH]; intros s; [reflexivity |].
  simpl. rewrite Hstop, Hctx. simpl. unfold server.delivered. simpl.
  destruct (server.watcher turn) as [err|events]; simpl.
  - apply IH.
  - rewrite fold_left_app. apply IH.
Qed.

(** X10. While the store is not stopped and the context is not done,
    [watchAPIKeys] applies every event the opened watches deliver, in the
    order delivered, across reconnections; a [Watch] call that fails adds
    nothing. Once a pass finds the stop channel closed or the context done,
    the loop returns and no later event is applied. *)
Theorem watchAPIKeys_applies_in_order (s : server.APIKeyStore)
    (before after : list server.Turn) (last_turn : server.Turn) :
  Forall (fun turn => server.stopClosed turn = false /\ server.ctxDone turn = false) before ->
  server.watchAPIKeys s before
    = fold_left server.handleWatchEvent (server.delivered before) s
  /\ (server.stopClosed last_turn = true \/ server.ctxDone last_turn = true ->
      server.watchAPIKeys s (before ++ last_turn :: after)
        = fold_left server.handleWatchEvent (server.delivered before) s).
Proof.
  intros Hrun. split; [now apply watchAPIKeys_running |].
  intros Hstop. revert s.
  induction Hrun as [|turn turns [Hs Hc] _ IH]; intros s.
  - simpl. destruct Hstop as [-> | ->]; [reflexivity |].
    now rewrite orb_true_r.
  - simpl. rewrite Hs, Hc. simpl. unfold server.delivered. simpl.
    destruct (server.watcher turn) as [err|events]; simpl.
    + apply IH.
    + rewrite fold_left_app. apply IH.
Qed.

Lemma watchAPIKeys_applies_in_order_witness :
  let running events := {| server.stopClosed := false; server.ctxDone := false;
                           server.watcher := events |} in
  let stopped := {| server.stopClosed := true; server.ctxDone := false;
                    server.watcher := server.WatchChannel
                      [sample.event watch.Deleted (sample.document "aa" "late" true)] |} in
  server.keyHashes
    (server.watchAPIKeys (sample.store_of ∅ [])
       ([running (server.WatchChannel
                    [sample.event watch.Added (sample.document "aa" "A" true)]);
         running (server.WatchError "EOF");
         running (server.WatchChannel
                    [sample.event watch.Modified (sample.document "aa" "B" false)])]
        ++ stopped :: [])) !! "aa"
  = Some (sample.entry "aa" "B" false).
Proof.
  intros running stopped.
  rewrite (proj2 (watchAPIKeys_applies_in_order (sample.store_of ∅ [])
    [running (server.WatchChannel [sample.event watch.Added (sample.document "aa" "A" true)]);
     running (server.WatchError "EOF");
     running (server.WatchChannel
                [sample.event watch.Modified (sample.document "aa" "B" false)])]
    [] stopped
    ltac:(repeat constructor)) (or_introl eq_refl)).
  reflexivity.
Defined.

(** * Further properties of the check protocol *)

Lemma ValidateKey_true_entry (s : server.APIKeyStore) (h : string) :
  server.ValidateKey s h = true <->
  exists entry, server.keyHashes s !! h = Some entry /\ Enabled entry = true.
Proof.
  unfold server.ValidateKey. split.
  - destruct (server.keyHashes s !! h) as [entry|]; [eauto | discriminate].
  - now intros (entry & -> & Hflag).
Qed.

Lemma Check_cases (a : authz.AuthorizationServer) (req : authz.CheckRequest) :
  let key := authz.extractAPIKey (authz.GetHeaders req) in
  (key = EmptyString /\ (authz.Check a req).1 = authz.denyResponse "Missing API key")
  \/ (key <> EmptyString
      /\ server.ValidateKey (authz.store a) (apikey.HashAPIKey key) = false
      /\ (authz.Check a req).1 = authz.denyResponse "Invalid or disabled API key")
  \/ (key <> EmptyString
      /\ server.ValidateKey (authz.store a) (apikey.HashAPIKey key) = true
      /\ (authz.Check a req).1 = authz.allowResponse).
Proof.
  intros key.
  destruct (String.eqb_spec key EmptyString) as [Hempty|Hne].
  - left. split; [exact Hempty |]. now rewrite (Check_missing a req Hempty).
  - right.
    destruct (server.ValidateKey (authz.store a) (apikey.HashAPIKey key)) eqn:Hvalid.
    + right. repeat split; [exact Hne |]. now rewrite (Check_allowed a req key eq_refl Hne Hvalid).
    + left. repeat split; [exact Hne |]. now rewrite (Check_denied a req key eq_refl Hne Hvalid).
Qed.

(** X11. [Check] fails closed. Its response is one of three values, the
    allow response or a deny with "Missing API key" or with "Invalid or
    disabled API key", and it is the allow response exactly when a key is
    presented and the index holds, under the SHA-256 hash of that key, an
    entry that is enabled. *)
Theorem Check_allows_iff_enabled_entry (a : authz.AuthorizationServer)
    (req : authz.CheckRequest) :
  let key := authz.extractAPIKey (authz.GetHeaders req) in
  ((authz.Check a req).1 = authz.allowResponse
   \/ (authz.Check a req).1 = authz.denyResponse "Missing API key"
   \/ (authz.Check a req).1 = authz.denyResponse "Invalid or disabled API key")
  /\ (authz.decision (authz.Check a req).1 = authz.ALLOW <->
        key <> EmptyString
        /\ exists entry,
             server.keyHashes (authz.store a) !! apikey.HashAPIKey key = Some entry
             /\ Enabled entry = true).
Proof.
  intros key.
  destruct (Check_cases a req)
    as [(Hkey & Hresp) | [(Hkey & Hvalid & Hresp) | (Hkey & Hvalid & Hresp)]];
    rewrite Hresp; subst key.
  - split; [auto |]. split; [discriminate | now intros [Hne _]].
  - split; [auto |]. split; [discriminate |].
    intros [_ Hentry]. apply ValidateKey_true_entry in Hentry. congruence.
  - split; [auto |]. split; [|reflexivity].
    intros _. split; [exact Hkey |]. now apply ValidateKey_true_entry.
Qed.

Lemma Check_allows_iff_enabled_entry_witness :
  let h := apikey.HashAPIKey "sk-ABC" in
  let a := sample.server_of {[ h := sample.entry h "live" true ]} in
  authz.decision
    (authz.Check a (sample.request {[ "authorization" := "Bearer sk-ABC" ]})).1 = authz.ALLOW.
Proof.
  intros h a.
  apply (proj2 (Check_allows_iff_enabled_entry a
                  (sample.request {[ "authorization" := "Bearer sk-ABC" ]}))).
  split; [discriminate |]. exists (sample.entry h "live" true). split; reflexivity.
Defined.

(** X12. A bearer [authorization] value takes precedence: the key is what
    follows ["Bearer "], whatever [x-api-key] holds. In particular a bare
    ["Bearer "] with nothing after it is denied with "Missing API key" and
    no lookup, even when the request also carries an [x-api-key] header. *)
Theorem bearer_takes_precedence (a : authz.AuthorizationServer)
    (headers : gmap string string) (key : string) :
  headers !! "authorization" = Some ("Bearer " +:+ key) ->
  authz.extractAPIKey headers = key
  /\ (key = EmptyString ->
      authz.Check a (sample.request headers) =
        (authz.denyResponse "Missing API key",
         [authz.CallPrintf "Denied: No API key provided"])).
Proof.
  intros Hauth.
  assert (Hkey : authz.extractAPIKey headers = key).
  { unfold authz.extractAPIKey. rewrite Hauth, HasPrefix_Bearer. apply TrimPrefix_Bearer. }
  split; [exact Hkey |].
  intros Hempty. apply Check_missing. simpl. now rewrite Hkey.
Qed.

Lemma bearer_takes_precedence_witness :
  let h := apikey.HashAPIKey "sk-ABC" in
  let a := sample.server_of {[ h := sample.entry h "live" true ]} in
  authz.Check a (sample.request {[ "authorization" := "Bearer "; "x-api-key" := "sk-ABC" ]})
  = (authz.denyResponse "Missing API key", [authz.CallPrintf "Denied: No API key provided"]).
Proof.
  intros h a.
  exact (proj2 (bearer_takes_precedence a
                  {[ "authorization" := "Bearer "; "x-api-key" := "sk-ABC" ]}
                  EmptyString eq_refl) eq_refl).
Defined.

(** X13. [Check] reads the two header names [authorization] and
    [x-api-key], in lower case, and nothing else: setting or removing any
    other header, [Authorization] with a capital included, changes neither
    the response nor the calls made. *)
Theorem Check_reads_two_headers_only (a : authz.AuthorizationServer)
    (headers : gmap string string) (name value : string) :
  name <> "authorization" -> name <> "x-api-key" ->
  authz.Check a (sample.request (<[name := value]> headers))
    = authz.Check a (sample.request headers)
  /\ authz.Check a (sample.request (delete name headers))
     = authz.Check a (sample.request headers).
Proof.
  intros Hauth Hkey.
  split; apply Check_depends_on_key; simpl; unfold authz.extractAPIKey.
  - now rewrite !lookup_insert_ne by congruence.
  - now rewrite !lookup_delete_ne by congruence.
Qed.

Lemma Check_reads_two_headers_only_witness :
  let h := apikey.HashAPIKey "sk-ABC" in
  let a := sample.server_of {[ h := sample.entry h "live" true ]} in
  authz.Check a (sample.request (<["Authorization" := "Bearer sk-ABC"]> ∅))
  = (authz.denyResponse "Missing API key", [authz.CallPrintf "Denied: No API key provided"]).
Proof.
  intros h a.
  rewrite (proj1 (Check_reads_two_headers_only a ∅ "Authorization" "Bearer sk-ABC"
                    ltac:(discriminate) ltac:(discriminate))).
  reflexivity.
Defined.

Lemma hex_digit_lower (d : Z) :
  0 <= d < 16 -> apikey.is_lower_hex (sha256.hex_digit d) = true.
Proof.
  intros Hd.
  assert (Hcases : d = 0 \/ d = 1 \/ d = 2 \/ d = 3 \/ d = 4 \/ d = 5 \/ d = 6 \/ d = 7
                   \/ d = 8 \/ d = 9 \/ d = 10 \/ d = 11 \/ d = 12 \/ d = 13 \/ d = 14
                   \/ d = 15) by lia.
  repeat (destruct Hcases as [-> | Hcases]; [reflexivity |]). now subst d.
Qed.

Lemma hex32_lower (x : Z) :
  Forall (fun c => apikey.is_lower_hex c = true) (list_ascii_of_string (sha256.hex32 x)).
Proof.
  unfold sha256.hex32. rewrite list_ascii_of_string_of_list_ascii.
  repeat constructor; apply hex_digit_lower; apply Z.mod_pos_bound; lia.
Qed.

Lemma list_ascii_of_append (s t : string) :
  list_ascii_of_string (s +:+ t) = list_ascii_of_string s ++ list_ascii_of_string t.
Proof. induction s as [|c s IH]; simpl; [reflexivity | now rewrite IH]. Qed.

(** X14. [HashAPIKey] returns, for every key, 64 characters, each one of
    [0123456789abcdef]; in particular it never returns the empty string. *)
Theorem HashAPIKey_is_64_lower_hex (apiKey : string) :
  String.length (apikey.HashAPIKey apiKey) = 64%nat
  /\ Forall (fun c => apikey.is_lower_hex c = true)
            (list_ascii_of_string (apikey.HashAPIKey apiKey))
  /\ apikey.HashAPIKey apiKey <> EmptyString.
Proof.
  split; [apply length_HashAPIKey |]. split.
  - unfold apikey.HashAPIKey, sha256.hex.
    rewrite !list_ascii_of_append. rewrite !Forall_app.
    repeat split; apply hex32_lower.
  - intros Hempty. pose proof (length_HashAPIKey apiKey) as Hlen.
    rewrite Hempty in Hlen. discriminate.
Qed.

(** X15. An index entry stored under a key that is not 64 bytes long, the
    empty key for one, never takes part in a decision: [Check] answers and
    calls the same with such entries removed from the index. *)
Theorem Check_ignores_malformed_index_keys (s : server.APIKeyStore)
    (req : authz.CheckRequest) :
  let well_keyed := filter (fun kv => String.length kv.1 = 64%nat) (server.keyHashes s) in
  authz.Check {| authz.store := s |} req
  = authz.Check {| authz.store := server.set_keyHashes well_keyed s |} req.
Proof.
  intros well_keyed. unfold authz.Check.
  destruct (String.eqb _ _); [reflexivity |].
  unfold authz.bind, authz.HashAPIKey, authz.ValidateKey. simpl.
  assert (Hsame : forall key,
    server.ValidateKey (server.set_keyHashes well_keyed s) (apikey.HashAPIKey key)
    = server.ValidateKey s (apikey.HashAPIKey key)).
  { intros key. unfold server.ValidateKey. simpl. subst well_keyed.
    destruct (server.keyHashes s !! apikey.HashAPIKey key) as [entry|] eqn:Hlookup.
    - assert (Hkept : filter (fun kv => String.length kv.1 = 64%nat) (server.keyHashes s)
                        !! apikey.HashAPIKey key = Some entry).
      { apply map_lookup_filter_Some. split; [exact Hlookup | apply length_HashAPIKey]. }
      now rewrite Hkept.
    - assert (Hgone : filter (fun kv => String.length kv.1 = 64%nat) (server.keyHashes s)
                        !! apikey.HashAPIKey key = None).
      { apply map_lookup_filter_None. now left. }
      now rewrite Hgone. }
  now rewrite Hsame.
Qed.

(** X16. From the record to the decision. Once an added event has brought
    in a record whose [spec.keyHash] is the SHA-256 hash of a non-empty
    [key], a request presenting [key] as a bearer token is allowed when the
    record is enabled, and denied as "Invalid or disabled API key" when it
    is disabled; after the matching deleted event it is denied. *)
Theorem record_applied_then_checked (s : server.APIKeyStore)
    (obj : unstructured.Unstructured) (spec : gmap string unstructured.JValue)
    (headers : gmap string string) (key : string) :
  unstructured.Object obj !! "spec" = Some (unstructured.JObject spec) ->
  spec !! "keyHash" = Some (unstructured.JString (apikey.HashAPIKey key)) ->
  key <> EmptyString ->
  let req := sample.request (<["authorization" := "Bearer " +:+ key]> headers) in
  let added := server.handleWatchEvent s (sample.event watch.Added obj) in
  let deleted := server.handleWatchEvent added (sample.event watch.Deleted obj) in
  authz.decision (authz.Check {| authz.store := added |} req).1
    = (if server.enabledField spec then authz.ALLOW
       else authz.DENY "Invalid or disabled API key")
  /\ authz.decision (authz.Check {| authz.store := deleted |} req).1
     = authz.DENY "Invalid or disabled API key".
Proof.
  intros Hspec Hhash Hne req added deleted.
  destruct (parseAPIKey_with_spec obj spec Hspec) as [entry Hparse].
  assert (Hentry : KeyHash entry = apikey.HashAPIKey key /\ Enabled entry = server.enabledField spec).
  { revert Hparse. unfold server.parseAPIKey, unstructured.NestedMap,
      unstructured.NestedFieldNoCopy. simpl. rewrite Hspec. simpl.
    unfold unstructured.NestedString, unstructured.NestedBool,
      unstructured.NestedFieldNoCopy, server.enabledField. simpl. rewrite Hhash. simpl.
    intros [= <-]. simpl. split; [reflexivity |].
    destruct (spec !! "enabled") as [[]|]; reflexivity. }
  destruct Hentry as [Hkh Hen].
  assert (Hkey : authz.extractAPIKey (authz.GetHeaders req) = key)
    by apply extractAPIKey_bearer.
  assert (Hadded : server.ValidateKey added (apikey.HashAPIKey key) = server.enabledField spec).
  { subst added. unfold server.ValidateKey, server.handleWatchEvent. simpl.
    rewrite Hparse. simpl. rewrite Hkh, lookup_insert_eq. exact Hen. }
  assert (Hdeleted : server.ValidateKey deleted (apikey.HashAPIKey key) = false).
  { subst deleted added. unfold server.ValidateKey, server.handleWatchEvent. simpl.
    rewrite Hparse. simpl. now rewrite Hkh, lookup_delete_eq. }
  split.
  - destruct (server.enabledField spec).
    + now rewrite (Check_allowed {| authz.store := added |} req key Hkey Hne Hadded).
    + now rewrite (Check_denied {| authz.store := added |} req key Hkey Hne Hadded).
  - now rewrite (Check_denied {| authz.store := deleted |} req key Hkey Hne Hdeleted).
Qed.

Lemma record_applied_then_checked_witness :
  let h := apikey.HashAPIKey "sk-ABC" in
  authz.decision
    (authz.Check
       {| authz.store := server.handleWatchEvent (sample.store_of ∅ [])
                           (sample.event watch.Added (sample.document h "live" true)) |}
       (sample.request (<["authorization" := "Bearer " +:+ "sk-ABC"]> ∅))).1
  = authz.ALLOW.
Proof.
  intros h.
  refine (proj1 (record_applied_then_checked (sample.store_of ∅ [])
    (sample.document h "live" true)
    {[ "email" := unstructured.JString "user@example.com";
       "keyHash" := unstructured.JString h;
       "keyHint" := unstructured.JString "sk-abc*************de";
       "description" := unstructured.JString "live";
       "enabled" := unstructured.JBool true ]}
    ∅ "sk-ABC" eq_refl eq_refl _)).
  discriminate.
Defined.

(** * Further properties of the key generator *)

(** ** Matching by derivatives is matching *)

Lemma append_empty_inv (s1 s2 : string) :
  s1 +:+ s2 = EmptyString -> s1 = EmptyString /\ s2 = EmptyString.
Proof. destruct s1; [auto | discriminate]. Qed.

Lemma nullable_Matches (r : regexp.Regexp) :
  regexp.nullable r = true <-> regexp.Matches r EmptyString.
Proof.
  split.
  - induction r; simpl; intros Hnull; try discriminate.
    + constructor.
    + apply andb_true_iff in Hnull as [H1 H2].
      change EmptyString with (EmptyString +:+ EmptyString). constructor; auto.
    + apply orb_true_iff in Hnull as [H1 | H2];
        [apply regexp.MatchesLeft | apply regexp.MatchesRight]; auto.
    + constructor.
  - intros Hmatch. remember EmptyString as s eqn:Hs.
    induction Hmatch; simpl; try discriminate; try reflexivity.
    + apply append_empty_inv in Hs as [-> ->]. rewrite IHHmatch1, IHHmatch2; auto.
    + rewrite IHHmatch; auto.
    + rewrite IHHmatch; auto. apply orb_true_r.
Qed.

Lemma Matches_deriv (c : ascii) (r : regexp.Regexp) :
  forall s, regexp.Matches (regexp.deriv c r) s -> regexp.Matches r (String c s).
Proof.
  induction r as [| |ranges|r1 IH1 r2 IH2|r1 IH1 r2 IH2|r1 IH1]; simpl; intros s Hmatch.
  - inversion Hmatch.
  - inversion Hmatch.
  - destruct (regexp.in_class ranges c) eqn:Hclass; inversion Hmatch; subst.
    now constructor.
  - assert (Hleft : forall t, regexp.Matches (regexp.Concat (regexp.deriv c r1) r2) t ->
                              regexp.Matches (regexp.Concat r1 r2) (String c t)).
    { intros t Ht. inversion Ht; subst.
      change (String c (s1 +:+ s2)) with (String c s1 +:+ s2). constructor; auto. }
    destruct (regexp.nullable r1) eqn:Hnull; [|now apply Hleft].
    inversion Hmatch; subst; [now apply Hleft |].
    change (String c s) with (EmptyString +:+ String c s).
    constructor; [now apply nullable_Matches | auto].
  - inversion Hmatch; subst;
      [apply regexp.MatchesLeft | apply regexp.MatchesRight]; auto.
  - inversion Hmatch; subst.
    change (String c (s1 +:+ s2)) with (String c s1 +:+ s2). constructor; auto.
Qed.

Lemma deriv_Matches (r : regexp.Regexp) (t : string) :
  regexp.Matches r t ->
  forall c s, t = String c s -> regexp.Matches (regexp.deriv c r) s.
Proof.
  induction 1 as [|ranges c' Hclass|r1 r2 s1 s2 H1 IH1 H2 IH2|r1 r2 s0 H0 IH0
                  |r1 r2 s0 H0 IH0|r0|r0 s1 s2 H1 IH1 H2 IH2];
    intros c s Heq; simpl.
  - discriminate.
  - injection Heq as -> <-. rewrite Hclass. constructor.
  - destruct s1 as [|c1 s1]; simpl in Heq.
    + rewrite (proj2 (nullable_Matches r1) H1).
      apply regexp.MatchesRight. now apply IH2.
    + injection Heq as -> <-.
      assert (Hcat : regexp.Matches (regexp.Concat (regexp.deriv c r1) r2) (s1 +:+ s2))
        by (constructor; [now apply IH1 | exact H2]).
      destruct (regexp.nullable r1); [now apply regexp.MatchesLeft | exact Hcat].
  - apply regexp.MatchesLeft. now apply IH0.
  - apply regexp.MatchesRight. now apply IH0.
  - discriminate.
  - destruct s1 as [|c1 s1]; simpl in Heq.
    + now apply IH2.
    + injection Heq as -> <-. constructor; [now apply IH1 | exact H2].
Qed.

Lemma MatchString_Matches (s : string) :
  forall r, regexp.MatchString r s = true <-> regexp.Matches r s.
Proof.
  induction s as [|c s IH]; intros r; simpl.
  - apply nullable_Matches.
  - rewrite IH. split.
    + apply Matches_deriv.
    + intros Hmatch. now apply (deriv_Matches r (String c s)).
Qed.

(** ** What the pieces of the pattern match *)

Lemma Matches_Concat_inv (r1 r2 : regexp.Regexp) (s : string) :
  regexp.Matches (regexp.Concat r1 r2) s <->
  exists s1 s2, s = s1 +:+ s2 /\ regexp.Matches r1 s1 /\ regexp.Matches r2 s2.
Proof.
  split.
  - intros Hmatch. inversion Hmatch; subst. eauto.
  - intros (s1 & s2 & -> & H1 & H2). now constructor.
Qed.

Lemma Matches_CharClass_inv (ranges : list (ascii * ascii)) (s : string) :
  regexp.Matches (regexp.CharClass ranges) s <->
  exists c, s = String c EmptyString /\ regexp.in_class ranges c = true.
Proof.
  split.
  - intros Hmatch. inversion Hmatch; subst. eauto.
  - intros (c & -> & Hclass). now constructor.
Qed.

Lemma Matches_Star_class (ranges : list (ascii * ascii)) (s : string) :
  regexp.Matches (regexp.Star (regexp.CharClass ranges)) s <-> regexp.all_in ranges s.
Proof.
  unfold regexp.all_in. split.
  - intros Hmatch. remember (regexp.Star (regexp.CharClass ranges)) as r eqn:Hr.
    induction Hmatch; try discriminate.
    + constructor.
    + injection Hr as ->. inversion Hmatch1; subst. simpl.
      constructor; [assumption | now apply IHHmatch2].
  - induction s as [|c s IH]; simpl; intros Hall.
    + constructor.
    + inversion Hall; subst.
      change (String c s) with (String c EmptyString +:+ s).
      constructor; [now constructor | now apply IH].
Qed.

Lemma Matches_Plus_class (ranges : list (ascii * ascii)) (s : string) :
  regexp.Matches (regexp.Plus (regexp.CharClass ranges)) s <->
  s <> EmptyString /\ regexp.all_in ranges s.
Proof.
  unfold regexp.Plus. rewrite Matches_Concat_inv. split.
  - intros (s1 & s2 & -> & H1 & H2).
    apply Matches_CharClass_inv in H1 as (c & -> & Hclass).
    apply Matches_Star_class in H2. simpl. split; [discriminate |].
    unfold regexp.all_in. simpl. now constructor.
  - intros [Hne Hall]. destruct s as [|c s]; [contradiction |].
    unfold regexp.all_in in Hall. simpl in Hall. inversion Hall; subst.
    exists (String c EmptyString), s. split; [reflexivity |].
    split; [now constructor | now apply Matches_Star_class].
Qed.

Lemma Matches_AtLeast2_class (ranges : list (ascii * ascii)) (s : string) :
  regexp.Matches (regexp.AtLeast 2 (regexp.CharClass ranges)) s <->
  (2 <= String.length s)%nat /\ regexp.all_in ranges s.
Proof.
  simpl. rewrite Matches_Concat_inv. split.
  - intros (s1 & s2 & -> & H1 & H2).
    apply Matches_CharClass_inv in H1 as (c1 & -> & Hc1).
    apply Matches_Concat_inv in H2 as (s3 & s4 & -> & H3 & H4).
    apply Matches_CharClass_inv in H3 as (c2 & -> & Hc2).
    apply Matches_Star_class in H4. simpl. split; [lia |].
    unfold regexp.all_in. simpl. now repeat constructor.
  - intros [Hlen Hall]. destruct s as [|c1 [|c2 s]]; simpl in Hlen; try lia.
    unfold regexp.all_in in Hall. simpl in Hall.
    inversion Hall as [|? ? Hc1 Hrest]; subst. inversion Hrest as [|? ? Hc2 Htail]; subst.
    exists (String c1 EmptyString), (String c2 s). split; [reflexivity |].
    split; [now constructor |].
    apply Matches_Concat_inv. exists (String c2 EmptyString), s.
    split; [reflexivity |]. split; [now constructor | now apply Matches_Star_class].
Qed.

Lemma Matches_Literal (c : ascii) (s : string) :
  regexp.Matches (regexp.Literal c) s <-> s = String c EmptyString.
Proof.
  unfold regexp.Literal. rewrite Matches_CharClass_inv. split.
  - intros (c' & -> & Hclass). f_equal.
    unfold regexp.in_class, regexp.in_range in Hclass. simpl in Hclass.
    rewrite orb_false_r in Hclass. apply andb_true_iff in Hclass as [Hlo Hhi].
    apply Nat.leb_le in Hlo, Hhi.
    rewrite <- (ascii_nat_embedding c), <- (ascii_nat_embedding c'). f_equal. lia.
  - intros ->. exists c. split; [reflexivity |].
    unfold regexp.in_class, regexp.in_range. simpl.
    rewrite Nat.leb_refl. reflexivity.
Qed.

(** X17. [ValidateEmail] returns nil exactly for the addresses of the form
    [local@domain.tld] where [local] is one or more bytes of
    [a-zA-Z0-9._%+-], [domain] is one or more bytes of [a-zA-Z0-9.-] and
    [tld] is two or more letters; for every other string it returns the
    error "invalid email format: " followed by the string. *)
Theorem ValidateEmail_accepts_iff (email : string) :
  (apikey.ValidateEmail email = None <->
     exists local domain tld : string,
       email = local +:+ "@" +:+ domain +:+ "." +:+ tld
       /\ local <> EmptyString /\ regexp.all_in apikey.localClass local
       /\ domain <> EmptyString /\ regexp.all_in apikey.domainClass domain
       /\ (2 <= String.length tld)%nat /\ regexp.all_in apikey.letterClass tld)
  /\ (apikey.ValidateEmail email <> None ->
      apikey.ValidateEmail email = Some ("invalid email format: " +:+ email)).
Proof.
  assert (Hshape : regexp.Matches apikey.emailRegex email <->
     exists local domain tld : string,
       email = local +:+ "@" +:+ domain +:+ "." +:+ tld
       /\ local <> EmptyString /\ regexp.all_in apikey.localClass local
       /\ domain <> EmptyString /\ regexp.all_in apikey.domainClass domain
       /\ (2 <= String.length tld)%nat /\ regexp.all_in apikey.letterClass tld).
  { unfold apikey.emailRegex. split.
    - intros Hmatch.
      apply Matches_Concat_inv in Hmatch as (local & rest1 & -> & Hlocal & Hrest1).
      apply Matches_Concat_inv in Hrest1 as (at_sign & rest2 & -> & Hat & Hrest2).
      apply Matches_Concat_inv in Hrest2 as (domain & rest3 & -> & Hdomain & Hrest3).
      apply Matches_Concat_inv in Hrest3 as (dot & tld & -> & Hdot & Htld).
      apply Matches_Literal in Hat, Hdot. subst at_sign dot.
      apply Matches_Plus_class in Hlocal as [Hl1 Hl2].
      apply Matches_Plus_class in Hdomain as [Hd1 Hd2].
      apply Matches_AtLeast2_class in Htld as [Ht1 Ht2].
      exists local, domain, tld. repeat split; assumption.
    - intros (local & domain & tld & -> & Hl1 & Hl2 & Hd1 & Hd2 & Ht1 & Ht2).
      constructor; [now apply Matches_Plus_class |].
      constructor; [now apply Matches_Literal |].
      constructor; [now apply Matches_Plus_class |].
      constructor; [now apply Matches_Literal |].
      now apply Matches_AtLeast2_class. }
  unfold apikey.ValidateEmail.
  destruct (regexp.MatchString apikey.emailRegex email) eqn:Hmatch; simpl.
  - split; [|congruence]. split; [|reflexivity].
    intros _. apply Hshape. now apply MatchString_Matches.
  - split; [|reflexivity]. split; [discriminate |].
    intros Hparts. apply Hshape, MatchString_Matches in Hparts. congruence.
Qed.

Lemma ValidateEmail_accepts_iff_witness :
  apikey.ValidateEmail "user+tag@mail.example.com" = None
  /\ apikey.ValidateEmail "user@example" = Some "invalid email format: user@example".
Proof.
  split.
  - apply (proj1 (ValidateEmail_accepts_iff "user+tag@mail.example.com")).
    exists "user+tag", "mail.example", "com".
    split; [reflexivity |].
    repeat split; try discriminate; try (simpl; lia);
      unfold regexp.all_in; simpl; repeat constructor.
  - apply (proj2 (ValidateEmail_accepts_iff "user@example")). discriminate.
Defined.

(** ** Replacing one byte *)

Lemma ReplaceAll_byte (s : string) (old : ascii) (new : string) :
  replace.ReplaceAll s (String old EmptyString) new = replace.substitute old new s.
Proof.
  unfold replace.ReplaceAll. simpl.
  induction s as [|c s IH]; [reflexivity |].
  cbn [replace.replaceFrom replace.substitute String.prefix String.length Nat.sub].
  destruct (ascii_dec old c) as [Heq|Hne].
  - subst c. rewrite Ascii.eqb_refl.
    replace (String.prefix EmptyString s) with true by now destruct s.
    now rewrite IH.
  - destruct (Ascii.eqb_spec c old) as [Heq|_]; [now subst |]. now rewrite IH.
Qed.

Lemma SanitizeEmail_substitutes (email : string) :
  apikey.SanitizeEmail email
  = replace.substitute "." "-" (replace.substitute "@" "-at-" email).
Proof. unfold apikey.SanitizeEmail. now rewrite !ReplaceAll_byte. Qed.

Lemma append_assoc (s t u : string) : (s +:+ t) +:+ u = s +:+ (t +:+ u).
Proof.
  induction s as [|c s IH]; [reflexivity |].
  change (String c ((s +:+ t) +:+ u) = String c (s +:+ (t +:+ u))). now rewrite IH.
Qed.

Lemma substitute_append (old : ascii) (new s t : string) :
  replace.substitute old new (s +:+ t)
  = replace.substitute old new s +:+ replace.substitute old new t.
Proof.
  induction s as [|c s IH]; simpl; [reflexivity |].
  destruct (Ascii.eqb c old); rewrite IH; [now rewrite append_assoc | reflexivity].
Qed.

Lemma SanitizeEmail_append (s t : string) :
  apikey.SanitizeEmail (s +:+ t) = apikey.SanitizeEmail s +:+ apikey.SanitizeEmail t.
Proof. rewrite !SanitizeEmail_substitutes. now rewrite !substitute_append. Qed.

Lemma substitute_Forall (P : ascii -> Prop) (old : ascii) (new s : string) :
  Forall P (list_ascii_of_string new) ->
  Forall (fun c => c <> old -> P c) (list_ascii_of_string s) ->
  Forall P (list_ascii_of_string (replace.substitute old new s)).
Proof.
  intros Hnew. induction s as [|c s IH]; simpl; intros Hs; [constructor |].
  inversion Hs as [|? ? Hc Hrest]; subst.
  destruct (Ascii.eqb_spec c old) as [Heq|Hne].
  - rewrite list_ascii_of_append. apply Forall_app. split; [exact Hnew | now apply IH].
  - simpl. constructor; [now apply Hc | now apply IH].
Qed.

Lemma substitute_absent (old : ascii) (new s : string) :
  Forall (fun c => c <> old) (list_ascii_of_string s) ->
  replace.substitute old new s = s.
Proof.
  induction s as [|c s IH]; simpl; intros Hs; [reflexivity |].
  inversion Hs as [|? ? Hc Hrest]; subst.
  destruct (Ascii.eqb_spec c old) as [Heq|Hne]; [contradiction |]. now rewrite IH.
Qed.

Lemma SanitizeEmail_no_at_no_dot (email : string) :
  Forall (fun c => c <> "@"%char /\ c <> "."%char)
         (list_ascii_of_string (apikey.SanitizeEmail email)).
Proof.
  rewrite SanitizeEmail_substitutes.
  apply substitute_Forall.
  - repeat constructor; discriminate.
  - apply Forall_impl with (P := fun c => c <> "@"%char).
    + apply substitute_Forall.
      * repeat constructor; discriminate.
      * apply Forall_forall. auto.
    + intros c Hat Hdot. split; assumption.
Qed.

(** X18. The name [SanitizeEmail] returns never holds an [@] or a dot,
    whatever the input, and sanitizing it again changes nothing. *)
Theorem SanitizeEmail_removes_at_and_dot (email : string) :
  Forall (fun c => c <> "@"%char /\ c <> "."%char)
         (list_ascii_of_string (apikey.SanitizeEmail email))
  /\ apikey.SanitizeEmail (apikey.SanitizeEmail email) = apikey.SanitizeEmail email.
Proof.
  split; [apply SanitizeEmail_no_at_no_dot |].
  pose proof (SanitizeEmail_no_at_no_dot email) as Hclean.
  rewrite (SanitizeEmail_substitutes (apikey.SanitizeEmail email)).
  rewrite (substitute_absent "@" "-at-").
  - apply substitute_absent. eapply Forall_impl; [exact Hclean |]. now intros c [_ Hdot].
  - eapply Forall_impl; [exact Hclean |]. now intros c [Hat _].
Qed.

(** X19. [SanitizeEmail] is not injective: an address with a dot and the
    address with a dash in its place get the same resource name, and so do
    an [@] and the text [-at-]. Two different owners can be given the same
    name. *)
Theorem SanitizeEmail_collides (s t : string) :
  apikey.SanitizeEmail (s +:+ "." +:+ t) = apikey.SanitizeEmail (s +:+ "-" +:+ t)
  /\ s +:+ "." +:+ t <> s +:+ "-" +:+ t
  /\ apikey.SanitizeEmail (s +:+ "@" +:+ t) = apikey.SanitizeEmail (s +:+ "-at-" +:+ t)
  /\ s +:+ "@" +:+ t <> s +:+ "-at-" +:+ t.
Proof.
  assert (Hdiff : forall u v : string,
            (forall w, u +:+ w <> v +:+ w) -> s +:+ u +:+ t <> s +:+ v +:+ t).
  { intros u v Huv. induction s as [|c s' IH]; simpl; [apply Huv |].
    intros [= Heq]. now apply IH. }
  repeat split.
  - now rewrite !SanitizeEmail_append.
  - apply Hdiff. intros w. discriminate.
  - now rewrite !SanitizeEmail_append.
  - apply Hdiff. intros w. discriminate.
Qed.

(** ** Base64 *)

Lemma land_63_bounds (x : Z) : 0 <= Z.land x 0x3F < 64.
Proof.
  change 0x3F with (Z.ones 6). rewrite Z.land_ones by lia.
  apply Z.mod_pos_bound. reflexivity.
Qed.

Lemma encode_position (n : nat) :
  (n < 64)%nat ->
  index 0 (String (base64.encode (Z.of_nat n)) EmptyString) base64.encodeURL = Some n.
Proof.
  intros Hn.
  do 64 (destruct n as [|n]; [reflexivity |]). lia.
Qed.

Lemma encode_in_alphabet (v : Z) : 0 <= v < 64 -> base64.in_alphabet (base64.encode v) = true.
Proof.
  intros Hv. unfold base64.in_alphabet.
  rewrite <- (Z2Nat.id v) by lia. rewrite encode_position by lia. reflexivity.
Qed.

Lemma encode_injective (u v : Z) :
  0 <= u < 64 -> 0 <= v < 64 -> base64.encode u = base64.encode v -> u = v.
Proof.
  intros Hu Hv Heq.
  pose proof (encode_position (Z.to_nat u) ltac:(lia)) as Pu.
  pose proof (encode_position (Z.to_nat v) ltac:(lia)) as Pv.
  rewrite Z2Nat.id in Pu, Pv by lia. rewrite Heq in Pu. rewrite Pu in Pv.
  injection Pv as Pv. lia.
Qed.

Lemma Encode_in_alphabet (n : nat) :
  forall src, (length src <= n)%nat ->
  Forall (fun c => base64.in_alphabet c = true) (base64.Encode src).
Proof.
  induction n as [|n IH]; intros src Hlen.
  - destruct src; [constructor | simpl in Hlen; lia].
  - destruct src as [|b0 [|b1 [|b2 rest]]]; simpl.
    + constructor.
    + repeat constructor; apply encode_in_alphabet, land_63_bounds.
    + repeat constructor; apply encode_in_alphabet, land_63_bounds.
    + repeat (constructor; [apply encode_in_alphabet, land_63_bounds |]).
      apply IH. simpl in Hlen. lia.
Qed.

Lemma length_Encode_32 (src : list Z) :
  length src = 32%nat -> length (base64.Encode src) = 43%nat.
Proof.
  intros Hlen.
  do 32 (destruct src as [|? src]; [discriminate |]).
  destruct src; [reflexivity | discriminate].
Qed.

Lemma length_string_of_list_ascii (l : list ascii) :
  String.length (string_of_list_ascii l) = length l.
Proof. induction l as [|c l IH]; simpl; [reflexivity | now rewrite IH]. Qed.

Lemma buffer_length (written : list Z) :
  length (firstn 32 (written ++ repeat 0 32)) = 32%nat.
Proof.
  rewrite length_firstn, length_app, repeat_length. lia.
Qed.

(** X20. When the reader returns an error, [GenerateAPIKeyWithReader]
    returns the empty key and the error "error generating random key: ...".
    When it does not, the key is [sk-] followed by 43 characters of the
    URL-safe base64 alphabet, 46 bytes in all, however many bytes the
    reader wrote. *)
Theorem GenerateAPIKeyWithReader_shape (reader : apikey.Reader) :
  (forall err, apikey.readError (reader 32%nat) = Some err ->
     apikey.GenerateAPIKeyWithReader reader
     = (EmptyString, Some ("error generating random key: " +:+ err)))
  /\ (apikey.readError (reader 32%nat) = None ->
      exists body : string,
        apikey.GenerateAPIKeyWithReader reader = ("sk-" +:+ body, None)
        /\ String.length body = 43%nat
        /\ Forall (fun c => base64.in_alphabet c = true) (list_ascii_of_string body)
        /\ String.length ("sk-" +:+ body) = 46%nat).
Proof.
  unfold apikey.GenerateAPIKeyWithReader. split.
  - now intros err ->.
  - intros ->. eexists. split; [reflexivity |].
    unfold base64.RawURLEncoding_EncodeToString.
    assert (Hbody : String.length
              (string_of_list_ascii
                 (base64.Encode
                    (firstn 32 (apikey.written (reader 32%nat) ++ repeat 0 32)))) = 43%nat).
    { rewrite length_string_of_list_ascii. apply length_Encode_32, buffer_length. }
    split; [exact Hbody |]. split.
    + rewrite list_ascii_of_string_of_list_ascii.
      apply (Encode_in_alphabet 32). now rewrite buffer_length.
    + rewrite length_append, Hbody. reflexivity.
Qed.

Lemma GenerateAPIKeyWithReader_shape_witness :
  apikey.GenerateAPIKeyWithReader
    (fun n => {| apikey.written := []; apikey.readError := Some "simulated random read failure" |})
  = (EmptyString, Some "error generating random key: simulated random read failure")
  /\ exists body : string,
       apikey.GenerateAPIKeyWithReader
         (fun n => {| apikey.written := map Z.of_nat (seq 0 n); apikey.readError := None |})
       = ("sk-" +:+ body, None)
       /\ String.length body = 43%nat.
Proof.
  split.
  - exact (proj1 (GenerateAPIKeyWithReader_shape
      (fun n => {| apikey.written := [];
                   apikey.readError := Some "simulated random read failure" |}))
      "simulated random read failure" eq_refl).
  - destruct (proj2 (GenerateAPIKeyWithReader_shape
      (fun n => {| apikey.written := map Z.of_nat (seq 0 n); apikey.readError := None |}))
      eq_refl) as (body & Hkey & Hlen & _).
    exists body. split; assumption.
Defined.

(** X21. The hint of a generated key: for a key of the generator's form,
    [sk-] and 43 more bytes, [GenerateHint] returns 21 bytes that start with
    [sk-], are not the key and do not contain it. *)
Theorem GenerateHint_of_generated_key (body : string) :
  String.length body = 43%nat ->
  let key := "sk-" +:+ body in
  String.length (apikey.GenerateHint key) = 21%nat
  /\ substring 0 3 (apikey.GenerateHint key) = "sk-"
  /\ apikey.GenerateHint key <> key
  /\ ~ gostrings.Contains (apikey.GenerateHint key) key.
Proof.
  intros Hbody key.
  assert (Hlen : String.length key = 46%nat)
    by (subst key; rewrite length_append, Hbody; reflexivity).
  assert (Hhint : String.length (apikey.GenerateHint key) = 21%nat)
    by (apply length_GenerateHint_masked; lia).
  split; [exact Hhint |]. split; [|split].
  - rewrite GenerateHint_masked by lia. subst key.
    destruct body as [|c1 [|c2 [|c3 body]]]; try discriminate. reflexivity.
  - intros Heq. rewrite Heq in Hhint. lia.
  - intros Hin. apply Contains_length in Hin. lia.
Qed.

Lemma GenerateHint_of_generated_key_witness :
  apikey.GenerateHint "sk-AAECAwQFBgcICQoLDA0ODxAREhMUFRYXGBkaGxwdHh8"
  <> "sk-AAECAwQFBgcICQoLDA0ODxAREhMUFRYXGBkaGxwdHh8".
Proof.
  exact (proj1 (proj2 (proj2 (GenerateHint_of_generated_key
           "AAECAwQFBgcICQoLDA0ODxAREhMUFRYXGBkaGxwdHh8" eq_refl)))).
Defined.

Lemma lor_shiftl_add (a b n : Z) :
  0 <= n -> 0 <= b < 2 ^ n -> Z.lor (Z.shiftl a n) b = a * 2 ^ n + b.
Proof.
  intros Hn Hb. rewrite Z.shiftl_mul_pow2 by exact Hn.
  assert (Hdisjoint : Z.land (a * 2 ^ n) b = 0).
  { apply Z.bits_inj'. intros i Hi. rewrite Z.land_spec, Z.bits_0.
    destruct (Z.lt_ge_cases i n) as [Hlow|Hhigh].
    - now rewrite Z.mul_pow2_bits_low.
    - rewrite <- (Z.mod_small b (2 ^ n)) by exact Hb.
      rewrite Z.mod_pow2_bits_high by lia. apply andb_false_r. }
  rewrite <- Z.lxor_lor by exact Hdisjoint.
  symmetry. now apply Z.add_nocarry_lxor.
Qed.

(** The four characters of a group of three bytes, as quotients and
    remainders of the bytes. *)
Lemma group_sextets (b0 b1 b2 : Z) :
  0 <= b0 < 256 -> 0 <= b1 < 256 -> 0 <= b2 < 256 ->
  let val := Z.lor (Z.lor (Z.shiftl b0 16) (Z.shiftl b1 8)) b2 in
  Z.land (Z.shiftr val 18) 0x3F = b0 / 4
  /\ Z.land (Z.shiftr val 12) 0x3F = b0 mod 4 * 16 + b1 / 16
  /\ Z.land (Z.shiftr val 6) 0x3F = b1 mod 16 * 4 + b2 / 64
  /\ Z.land val 0x3F = b2 mod 64.
Proof.
  intros H0 H1 H2 val.
  assert (Hval : val = b0 * 65536 + b1 * 256 + b2).
  { subst val.
    rewrite (Z.shiftl_mul_pow2 b0 16) by lia.
    replace (b0 * 2 ^ 16) with (b0 * 2 ^ 8 * 2 ^ 8) by lia.
    rewrite <- (Z.shiftl_mul_pow2 (b0 * 2 ^ 8) 8) by lia.
    rewrite <- Z.shiftl_lor.
    rewrite <- (Z.shiftl_mul_pow2 b0 8) by lia.
    rewrite (lor_shiftl_add b0 b1 8) by lia.
    rewrite (lor_shiftl_add (b0 * 2 ^ 8 + b1) b2 8) by lia. lia. }
  rewrite Hval. change 0x3F with (Z.ones 6).
  rewrite !Z.land_ones, !Z.shiftr_div_pow2 by lia.
  change (2 ^ 18) with 262144. change (2 ^ 12) with 4096. change (2 ^ 6) with 64.
  repeat split; Z.div_mod_to_equations; lia.
Qed.

Lemma group_injective (a0 a1 a2 b0 b1 b2 : Z) :
  0 <= a0 < 256 -> 0 <= a1 < 256 -> 0 <= a2 < 256 ->
  0 <= b0 < 256 -> 0 <= b1 < 256 -> 0 <= b2 < 256 ->
  let va := Z.lor (Z.lor (Z.shiftl a0 16) (Z.shiftl a1 8)) a2 in
  let vb := Z.lor (Z.lor (Z.shiftl b0 16) (Z.shiftl b1 8)) b2 in
  base64.encode (Z.land (Z.shiftr va 18) 0x3F) = base64.encode (Z.land (Z.shiftr vb 18) 0x3F) ->
  base64.encode (Z.land (Z.shiftr va 12) 0x3F) = base64.encode (Z.land (Z.shiftr vb 12) 0x3F) ->
  base64.encode (Z.land (Z.shiftr va 6) 0x3F) = base64.encode (Z.land (Z.shiftr vb 6) 0x3F) ->
  (a0 = b0 /\ a1 = b1 /\ a2 / 64 = b2 / 64)
  /\ (base64.encode (Z.land va 0x3F) = base64.encode (Z.land vb 0x3F) -> a2 = b2).
Proof.
  intros Ha0 Ha1 Ha2 Hb0 Hb1 Hb2 va vb E0 E1 E2.
  apply encode_injective in E0, E1, E2; try apply land_63_bounds.
  destruct (group_sextets a0 a1 a2 Ha0 Ha1 Ha2) as (A0 & A1 & A2 & A3).
  destruct (group_sextets b0 b1 b2 Hb0 Hb1 Hb2) as (B0 & B1 & B2 & B3).
  fold va in A0, A1, A2, A3. fold vb in B0, B1, B2, B3.
  rewrite A0, B0 in E0. rewrite A1, B1 in E1. rewrite A2, B2 in E2.
  split.
  - clear A0 A1 A2 A3 B0 B1 B2 B3. Z.div_mod_to_equations. lia.
  - intros E3. apply encode_injective in E3; try apply land_63_bounds.
    rewrite A3, B3 in E3.
    clear A0 A1 A2 A3 B0 B1 B2 B3. Z.div_mod_to_equations. lia.
Qed.

Lemma Encode_injective (n : nat) :
  forall src1 src2 : list Z,
    (length src1 <= n)%nat ->
    Forall (fun b => 0 <= b < 256) src1 ->
    Forall (fun b => 0 <= b < 256) src2 ->
    base64.Encode src1 = base64.Encode src2 -> src1 = src2.
Proof.
  induction n as [|n IH]; intros src1 src2 Hlen Hb1 Hb2 Heq.
  - destruct src1; [|simpl in Hlen; lia].
    destruct src2 as [|b0 [|b1 [|b2 rest]]]; [reflexivity | discriminate ..].
  - destruct src1 as [|a0 [|a1 [|a2 rest1]]];
      destruct src2 as [|b0 [|b1 [|b2 rest2]]];
      try reflexivity; try discriminate;
      repeat match goal with
             | H : Forall _ (_ :: _) |- _ => inversion H; subst; clear H
             end.
    + (* one byte each *)
      cbn [base64.Encode] in Heq. injection Heq as E0 E1.
      replace (Z.shiftl a0 16) with (Z.lor (Z.lor (Z.shiftl a0 16) (Z.shiftl 0 8)) 0)
        in E0, E1 by now rewrite Z.shiftl_0_l, !Z.lor_0_r.
      replace (Z.shiftl b0 16) with (Z.lor (Z.lor (Z.shiftl b0 16) (Z.shiftl 0 8)) 0)
        in E0, E1 by now rewrite Z.shiftl_0_l, !Z.lor_0_r.
      assert (Hsame : a0 / 4 = b0 / 4 /\ a0 mod 4 * 16 + 0 / 16 = b0 mod 4 * 16 + 0 / 16).
      { apply encode_injective in E0, E1; try apply land_63_bounds.
        destruct (group_sextets a0 0 0 ltac:(assumption) ltac:(lia) ltac:(lia))
          as (A0 & A1 & _).
        destruct (group_sextets b0 0 0 ltac:(assumption) ltac:(lia) ltac:(lia))
          as (B0 & B1 & _).
        cbv zeta in A0, A1, B0, B1. rewrite A0, B0 in E0. rewrite A1, B1 in E1. auto. }
      f_equal. destruct Hsame as [Hq Hr]. Z.div_mod_to_equations. lia.
    + (* two bytes each *)
      cbn [base64.Encode] in Heq. injection Heq as E0 E1 E2.
      rewrite <- (Z.lor_0_r (Z.lor (Z.shiftl a0 16) (Z.shiftl a1 8))) in E0, E1, E2.
      rewrite <- (Z.lor_0_r (Z.lor (Z.shiftl b0 16) (Z.shiftl b1 8))) in E0, E1, E2.
      destruct (group_injective a0 a1 0 b0 b1 0) as [(-> & -> & _) _];
        try assumption; try lia.
      reflexivity.
    + (* a whole group, then the rest *)
      cbn [base64.Encode] in Heq. injection Heq as E0 E1 E2 E3 Hrest.
      destruct (group_injective a0 a1 a2 b0 b1 b2) as [(-> & -> & _) Hlast];
        try assumption.
      rewrite (Hlast E3). do 3 f_equal.
      apply IH; try assumption. simpl in Hlen. lia.
Qed.

Lemma string_of_list_ascii_injective (l1 l2 : list ascii) :
  string_of_list_ascii l1 = string_of_list_ascii l2 -> l1 = l2.
Proof.
  intros Heq. apply (f_equal list_ascii_of_string) in Heq.
  now rewrite !list_ascii_of_string_of_list_ascii in Heq.
Qed.

(** X22. Different random bytes give different keys: when two readers
    succeed and fill the 32-byte buffer with bytes, the two keys
    [GenerateAPIKeyWithReader] returns are equal only if the two buffers
    are. *)
Theorem GenerateAPIKeyWithReader_injective (reader1 reader2 : apikey.Reader) :
  apikey.readError (reader1 32%nat) = None ->
  apikey.readError (reader2 32%nat) = None ->
  Forall (fun b => 0 <= b < 256) (apikey.written (reader1 32%nat)) ->
  Forall (fun b => 0 <= b < 256) (apikey.written (reader2 32%nat)) ->
  (apikey.GenerateAPIKeyWithReader reader1).1 = (apikey.GenerateAPIKeyWithReader reader2).1 ->
  firstn 32 (apikey.written (reader1 32%nat) ++ repeat 0 32)
  = firstn 32 (apikey.written (reader2 32%nat) ++ repeat 0 32).
Proof.
  intros Hok1 Hok2 Hbytes1 Hbytes2.
  unfold apikey.GenerateAPIKeyWithReader. rewrite Hok1, Hok2. simpl.
  intros [= Heq]. apply string_of_list_ascii_injective in Heq.
  assert (Hbuffer : forall written,
            Forall (fun b => 0 <= b < 256) written ->
            Forall (fun b => 0 <= b < 256) (firstn 32 (written ++ repeat 0 32))).
  { intros written Hw. apply Forall_take, Forall_app. split; [exact Hw |].
    apply Forall_forall. intros b Hb. apply list_elem_of_In, repeat_spec in Hb. lia. }
  apply (Encode_injective 32); auto.
  now rewrite buffer_length.
Qed.

Lemma GenerateAPIKeyWithReader_injective_witness :
  let reader1 : apikey.Reader :=
    fun n => {| apikey.written := repeat 7 n; apikey.readError := None |} in
  let reader2 : apikey.Reader :=
    fun n => {| apikey.written := repeat 7 31 ++ [8]; apikey.readError := None |} in
  (apikey.GenerateAPIKeyWithReader reader1).1 <> (apikey.GenerateAPIKeyWithReader reader2).1.
Proof.
  intros reader1 reader2 Heq.
  assert (Hbuffers := GenerateAPIKeyWithReader_injective reader1 reader2 eq_refl eq_refl
            ltac:(repeat constructor; lia) ltac:(repeat constructor; lia) Heq).
  vm_compute in Hbuffers. discriminate.
Defined.

(** * From the client's manifest to the server's decision *)

(** A string of ASCII bytes is marshalled as it is. *)
Lemma Marshal_string_ascii (s : string) :
  Forall (fun c => (nat_of_ascii c < 128)%nat) (list_ascii_of_string s) ->
  json.Marshal_string s = s.
Proof.
  unfold json.Marshal_string.
  induction s as [|c s IH]; intros Hascii; [reflexivity |].
  simpl in Hascii. inversion Hascii as [|? ? Hc Hrest]; subst.
  cbn [json.coerce]. apply Nat.ltb_lt in Hc. rewrite Hc. now rewrite IH.
Qed.

Lemma hex_digit_ascii (d : Z) :
  0 <= d < 16 -> (nat_of_ascii (sha256.hex_digit d) < 128)%nat.
Proof.
  intros Hd.
  assert (Hcases : d = 0 \/ d = 1 \/ d = 2 \/ d = 3 \/ d = 4 \/ d = 5 \/ d = 6 \/ d = 7
                   \/ d = 8 \/ d = 9 \/ d = 10 \/ d = 11 \/ d = 12 \/ d = 13 \/ d = 14
                   \/ d = 15) by lia.
  repeat (destruct Hcases as [-> | Hcases]; [vm_compute; lia |]).
  subst d. vm_compute. lia.
Qed.

Lemma HashAPIKey_ascii (apiKey : string) :
  Forall (fun c => (nat_of_ascii c < 128)%nat)
         (list_ascii_of_string (apikey.HashAPIKey apiKey)).
Proof.
  assert (Hword : forall x,
            Forall (fun c => (nat_of_ascii c < 128)%nat)
                   (list_ascii_of_string (sha256.hex32 x))).
  { intros x. unfold sha256.hex32. rewrite list_ascii_of_string_of_list_ascii.
    cbn [map].
    repeat (constructor; [apply hex_digit_ascii, Z.mod_pos_bound; lia |]).
    constructor. }
  unfold apikey.HashAPIKey, sha256.hex.
  rewrite !list_ascii_of_append, !Forall_app. repeat split; apply Hword.
Qed.

(** X24. End to end. When the client's [run] succeeds with a key and a
    document, the address was valid, the key is not empty, and a server
    that receives the document in an added event answers a request
    presenting the key, as a bearer token or in [x-api-key], with ALLOW
    when the key was created enabled and with DENY "Invalid or disabled API
    key" when it was created disabled. *)
Theorem run_key_is_accepted (email description : string) (enabled : bool)
    (reader : apikey.Reader) (key : string) (doc : unstructured.Unstructured)
    (s : server.APIKeyStore) (headers : gmap string string) :
  manifest.run email description enabled reader = inr (key, doc) ->
  let served := {| authz.store := server.handleWatchEvent s (sample.event watch.Added doc) |} in
  let expected := if enabled then authz.ALLOW
                  else authz.DENY "Invalid or disabled API key" in
  apikey.ValidateEmail email = None
  /\ key <> EmptyString
  /\ authz.decision
       (authz.Check served
          (sample.request (<["authorization" := "Bearer " +:+ key]> headers))).1 = expected
  /\ authz.decision
       (authz.Check served
          (sample.request (<["x-api-key" := key]> (delete "authorization" headers)))).1
     = expected.
Proof.
  intros Hrun served expected. unfold manifest.run in Hrun.
  destruct (apikey.ValidateEmail email) as [err|] eqn:Hvalid; [discriminate |].
  unfold apikey.GenerateAPIKeyWithReader in Hrun.
  destruct (apikey.readError (reader 32%nat)) as [err|]; [discriminate |].
  injection Hrun as Hkey Hdoc.
  assert (Hne : key <> EmptyString) by (rewrite <- Hkey; discriminate).
  assert (Hstored : server.ValidateKey (authz.store served) (apikey.HashAPIKey key) = enabled).
  { assert (Hparse : exists entry, server.parseAPIKey doc = Some entry
                       /\ KeyHash entry = apikey.HashAPIKey key /\ Enabled entry = enabled).
    { subst doc. rewrite Hkey. eexists. split; [reflexivity |].
      split; [apply Marshal_string_ascii, HashAPIKey_ascii | reflexivity]. }
    destruct Hparse as (entry & Hparse & Hhash & Hflag).
    subst served. unfold server.ValidateKey, server.handleWatchEvent. simpl.
    rewrite Hparse. simpl. now rewrite Hhash, lookup_insert_eq. }
  assert (Hdecision : forall req,
            authz.extractAPIKey (authz.GetHeaders req) = key ->
            authz.decision (authz.Check served req).1 = expected).
  { intros req Hreq. subst expected. destruct enabled.
    - now rewrite (Check_allowed served req key Hreq Hne Hstored).
    - now rewrite (Check_denied served req key Hreq Hne Hstored). }
  split; [reflexivity |]. split; [exact Hne |]. split.
  - apply Hdecision. apply extractAPIKey_bearer.
  - apply Hdecision. apply extractAPIKey_x_api_key.
Qed.

Lemma run_key_is_accepted_witness :
  let reader : apikey.Reader :=
    fun n => {| apikey.written := map Z.of_nat (seq 0 n); apikey.readError := None |} in
  let key := "sk-AAECAwQFBgcICQoLDA0ODxAREhMUFRYXGBkaGxwdHh8" in
  exists doc,
    manifest.run "user@example.com" EmptyString true reader = inr (key, doc)
    /\ authz.decision
         (authz.Check
            {| authz.store := server.handleWatchEvent (sample.store_of ∅ [])
                                (sample.event watch.Added doc) |}
            (sample.request (<["authorization" := "Bearer " +:+ key]> ∅))).1 = authz.ALLOW.
Proof.
  intros reader key. eexists. split; [vm_compute; reflexivity |].
  refine (proj1 (proj2 (proj2 (run_key_is_accepted "user@example.com" EmptyString true reader
    key _ (sample.store_of ∅ []) ∅ _)))).
  vm_compute. reflexivity.
Defined.

(** * Further properties of hints and of the full sync *)

Lemma substring_append_left (a b : string) :
  substring 0 (String.length a) (a +:+ b) = a.
Proof.
  induction a as [|c a IH]; simpl; [apply substring_nothing | now rewrite IH].
Qed.

Lemma substring_append_right (a b : string) (n m : nat) :
  substring (String.length a + n) m (a +:+ b) = substring n m b.
Proof. induction a as [|c a IH]; simpl; [reflexivity | exact IH]. Qed.

(** X25. A hint is never longer than 21 bytes, and the hint of a hint is
    the hint itself. *)
Theorem GenerateHint_bounded_and_idempotent (apiKey : string) :
  (String.length (apikey.GenerateHint apiKey) <= 21)%nat
  /\ apikey.GenerateHint (apikey.GenerateHint apiKey) = apikey.GenerateHint apiKey.
Proof.
  destruct (Nat.lt_ge_cases (String.length apiKey) 8) as [Hshort|Hlong].
  - rewrite (GenerateHint_short apiKey Hshort).
    split; [lia | now apply GenerateHint_short].
  - split; [rewrite length_GenerateHint_masked; [lia | exact Hlong] |].
    rewrite (GenerateHint_masked (apikey.GenerateHint apiKey))
      by (rewrite length_GenerateHint_masked; [lia | exact Hlong]).
    rewrite length_GenerateHint_masked by exact Hlong.
    rewrite GenerateHint_masked by exact Hlong.
    set (first6 := substring 0 6 apiKey).
    set (last2 := substring (String.length apiKey - 2) 2 apiKey).
    assert (H6 : String.length first6 = 6%nat) by (apply length_substring; lia).
    assert (H2 : String.length last2 = 2%nat) by (apply length_substring; lia).
    f_equal; [|f_equal].
    + rewrite <- H6 at 1. apply substring_append_left.
    + change (21 - 2)%nat with (6 + 13)%nat. rewrite <- H6 at 1.
      rewrite substring_append_right.
      change 13%nat with (String.length "*************" + 0)%nat at 1.
      rewrite substring_append_right. rewrite <- H2 at 1. apply substring_whole.
Qed.

Lemma fold_load_size (Items : list unstructured.Unstructured) :
  forall m : gmap string APIKeyEntry,
    (size (fold_left server.load Items m) <= size m + length Items)%nat.
Proof.
  induction Items as [|item Items IH]; intros m; [simpl; lia |].
  cbn [fold_left length]. etransitivity; [apply IH |].
  unfold server.load.
  destruct (server.parseAPIKey item) as [entry|]; [|lia].
  pose proof (map_size_insert (KeyHash entry) entry m) as Hsize.
  destruct (m !! KeyHash entry); unfold id in Hsize; lia.
Qed.

Lemma last_filter_found (entries : list APIKeyEntry) (entry : APIKeyEntry) :
  last entries = Some entry ->
  exists found,
    last (filter (fun e => KeyHash e = KeyHash entry) entries) = Some found.
Proof.
  intros Hlast. apply last_Some in Hlast as [front ->].
  rewrite filter_app, filter_cons, decide_True, filter_nil by reflexivity.
  exists entry. apply last_snoc.
Qed.

(** X26. After a successful [syncAPIKeys] the index never holds more
    entries than the list had items, and it is empty, so that
    [readyHandler] answers 503, exactly when no item of the list has a
    [spec] map. *)
Theorem syncAPIKeys_size_and_readiness (s : server.APIKeyStore)
    (Items : list unstructured.Unstructured) :
  server.listAPIKeys s = server.ListItems Items ->
  let synced := (server.syncAPIKeys s).1 in
  (size (server.keyHashes synced) <= length Items)%nat
  /\ (server.keyHashes synced = ∅ <-> omap server.parseAPIKey Items = [])
  /\ (server.StatusCode (server.readyHandler synced) = 503 <->
        omap server.parseAPIKey Items = []).
Proof.
  intros Hlist synced.
  assert (Hmap : server.keyHashes synced = fold_left server.load Items ∅)
    by (subst synced; unfold server.syncAPIKeys; now rewrite Hlist).
  assert (Hempty : server.keyHashes synced = ∅ <-> omap server.parseAPIKey Items = []).
  { rewrite Hmap. split.
    - intros Hnone.
      destruct (last (omap server.parseAPIKey Items)) as [entry|] eqn:Hlast.
      + destruct (last_filter_found _ _ Hlast) as [found Hfound].
        pose proof (fold_load_lookup Items ∅ (KeyHash entry)) as Hlookup.
        rewrite Hfound, Hnone, lookup_empty in Hlookup. discriminate.
      + now apply last_None in Hlast.
    - intros Hnil. apply map_eq. intros h.
      rewrite fold_load_lookup, Hnil. reflexivity. }
  split; [|split; [exact Hempty |]].
  - rewrite Hmap. pose proof (fold_load_size Items ∅) as Hsize.
    rewrite map_size_empty in Hsize. exact Hsize.
  - rewrite <- Hempty. unfold server.readyHandler.
    destruct (GetStats_fields synced) as (-> & _ & _).
    destruct (Nat.eqb_spec (size (server.keyHashes synced)) 0) as [Hzero|Hpos]; simpl.
    + split; [intros _; now apply map_size_empty_inv | reflexivity].
    + split; [discriminate |]. intros Hnone. rewrite Hnone, map_size_empty in Hpos.
      contradiction.
Qed.

Lemma syncAPIKeys_size_and_readiness_witness :
  let Items := [sample.document_without_spec; sample.document_without_spec] in
  server.StatusCode
    (server.readyHandler
       (server.syncAPIKeys
          (sample.store_of {[ "aa" := sample.entry "aa" "stale" true ]} Items)).1) = 503.
Proof.
  intros Items.
  apply (proj2 (proj2 (syncAPIKeys_size_and_readiness
           (sample.store_of {[ "aa" := sample.entry "aa" "stale" true ]} Items) Items eq_refl))).
  reflexivity.
Defined.
